(** * Slab-ocean wind-stress filter (notebook 020_run_slab_model)

    A shallow embedding of [filter_windstress] and of its inner kernel
    [integrate], with the properties the design document states about them.

    Arrays along the time axis are lists, read with stdpp's lookup and
    written with stdpp's insert; an index outside an array is an error
    ([None]).  The kernel is written once for any scalar type with a zero,
    an addition and a multiplication, the way the jitted helper is
    compiled once per dtype.  The surrounding pipeline is stated over the
    real numbers of the Standard Library: a floating-point value is read
    as the real number it stands for, NaN (the missing-value marker) as
    [None], and the casts to single precision as a rounding function the
    development is parametric in. *)

From Stdlib Require Import Reals Lra ZArith.
From stdpp Require Import base option list.

(** ** The kernel [integrate], for any scalar type *)

Section Kernel.

Context {C : Type}.
Variable czero : C.
Variables cadd cmul : C → C → C.

Local Notation "x ⊕ y" := (cadd x y) (at level 50, left associativity).
Local Notation "x ⊗ y" := (cmul x y) (at level 40, left associativity).

(** [np.zeros_like(T)] *)
Definition zeros_like (T : list C) : list C := replicate (length T) czero.

(** [range(a, b)] *)
Definition range (a b : nat) : list nat := seq a (b - a).

(** One pass through the loop body, at index [l]:
    [q[l] = d_1[l-1]*q[l-1] + d_2[l-2]*q[l-2] + c_0[l]*T[l] + c_2[l-2]*T[l-2]] *)
Definition integrate_body (T d_1 d_2 c_0 c_2 : list C) (q : list C) (l : nat)
  : option (list C) :=
  d1 ← d_1 !! (l - 1);
  q1 ← q !! (l - 1);
  d2 ← d_2 !! (l - 2);
  q2 ← q !! (l - 2);
  c0 ← c_0 !! l;
  Tl ← T !! l;
  c2 ← c_2 !! (l - 2);
  Tl2 ← T !! (l - 2);
  guard (l < length q);;
  Some (<[l := d1 ⊗ q1 ⊕ d2 ⊗ q2 ⊕ c0 ⊗ Tl ⊕ c2 ⊗ Tl2]> q).

(** [for l in ls: body] over the array [q] *)
Fixpoint for_each (body : list C → nat → option (list C))
         (ls : list nat) (q : list C) : option (list C) :=
  match ls with
  | [] => Some q
  | l :: ls' => q' ← body q l; for_each body ls' q'
  end.

Definition integrate (T d_1 d_2 c_0 c_2 : list C) : option (list C) :=
  for_each (integrate_body T d_1 d_2 c_0 c_2)
           (range 2 (length T)) (zeros_like T).

(** A coefficient broadcast along a time axis of [n] steps. *)
Definition broadcast (c : C) (n : nat) : list C := replicate n c.

(** The series [q] obeys the recursion at index [l]. *)
Definition recurrence_at (T d_1 d_2 c_0 c_2 q : list C) (l : nat) : Prop :=
  ∃ d1 q1 d2 q2 c0 Tl c2 Tl2,
    d_1 !! (l - 1) = Some d1 ∧ q !! (l - 1) = Some q1 ∧
    d_2 !! (l - 2) = Some d2 ∧ q !! (l - 2) = Some q2 ∧
    c_0 !! l = Some c0 ∧ T !! l = Some Tl ∧
    c_2 !! (l - 2) = Some c2 ∧ T !! (l - 2) = Some Tl2 ∧
    q !! l = Some (d1 ⊗ q1 ⊕ d2 ⊗ q2 ⊕ c0 ⊗ Tl ⊕ c2 ⊗ Tl2).

End Kernel.

(** ** An executable scalar type: Gaussian integers *)

Module GaussZ.

Definition t : Type := Z * Z.
Definition zero : t := (0, 0)%Z.
Definition add (a b : t) : t := (a.1 + b.1, a.2 + b.2)%Z.
Definition mul (a b : t) : t :=
  (a.1 * b.1 - a.2 * b.2, a.1 * b.2 + a.2 * b.1)%Z.

Definition integrate := integrate zero add mul.
Definition broadcast := @broadcast t.

End GaussZ.

(** ** Exact complex arithmetic *)

Open Scope R_scope.

Record complex : Type := mkC { re : R; im : R }.

Definition RtoC (x : R) : complex := mkC x 0.
Definition C0 : complex := RtoC 0.
(** The literal [1j] *)
Definition Cj : complex := mkC 0 1.

Definition Cadd (a b : complex) : complex := mkC (re a + re b) (im a + im b).
Definition Copp (a : complex) : complex := mkC (- re a) (- im a).
Definition Cmul (a b : complex) : complex :=
  mkC (re a * re b - im a * im b) (re a * im b + im a * re b).
(** Division is that of the reals, total: a zero denominator has no
    special case of its own here. *)
Definition Cdiv (a b : complex) : complex :=
  mkC ((re a * re b + im a * im b) / (re b * re b + im b * im b))
      ((im a * re b - re a * im b) / (re b * re b + im b * im b)).

(** [z == 0] *)
Definition Ceq0 (z : complex) : bool :=
  if Req_dec_T (re z) 0 then (if Req_dec_T (im z) 0 then true else false)
  else false.

(** ** The time axis and its uniform-step check *)

(** [datetime64[ns]] stamps are 64-bit integers; their differences wrap. *)
Definition wrap_int64 (x : Z) : Z := ((x + 2 ^ 63) mod 2 ^ 64 - 2 ^ 63)%Z.

(** [time.diff("time")]: [t[i+1] - t[i]] *)
Fixpoint diff (t : list Z) : list Z :=
  match t with
  | a :: (b :: _) as t' => wrap_int64 (b - a) :: diff t'
  | _ => []
  end.

(** [.astype("float")] *)
Definition astype_float (xs : list Z) : list R := IZR <$> xs.

Definition Rsum (xs : list R) : R := foldr Rplus 0 xs.

(** [.mean("time")] and [.std("time")] (population standard deviation) of a
    non-empty series *)
Definition mean (xs : list R) : R := Rsum xs / INR (length xs).
Definition std (xs : list R) : R :=
  sqrt (mean ((λ x, (x - mean xs) * (x - mean xs)) <$> xs)).

Inductive result (A : Type) : Type :=
  | Ok (a : A)
  | AssertionError
  | IndexError.
Arguments Ok {A} a.
Arguments AssertionError {A}.
Arguments IndexError {A}.

(** [assert time.diff.std / 1e9 < 1e-4; dt = time.diff.mean / 1e9].
    On an axis with fewer than two stamps the statistics of the empty
    difference series are NaN, and [NaN < 1e-4] is false. *)
Definition time_step (time : list Z) : result R :=
  match astype_float (diff time) with
  | [] => AssertionError
  | d => if Rlt_dec (std d / 1e9) 1e-4 then Ok (mean d / 1e9)
         else AssertionError
  end.

(** ** Coefficients *)

(** [np.deg2rad] *)
Definition deg2rad (x : R) : R := x * (PI / 180).

(** [2 * 7.2921e-5 * np.sin(np.deg2rad(lat))] *)
Definition coriolis (lat : R) : R := 2 * 7.2921e-5 * sin (deg2rad lat).

Record Coefficients : Type :=
  { c_0 : complex; c_2 : complex; d_1 : complex; d_2 : complex }.

Definition coefficients (epsilon rho H f dt : R) : Coefficients :=
  let c0 :=
    Cdiv (Cdiv (Cdiv (RtoC (-1)) (Cadd (RtoC epsilon) (Cmul Cj (RtoC f))))
               (RtoC rho)) (RtoC H) in
  {| c_0 := c0;
     c_2 := Copp c0;
     d_1 := Cmul (Cmul (Copp (mkC 0 2)) (RtoC f)) (RtoC dt);
     d_2 := RtoC (1 - 2 * epsilon * dt) |}.

(** ** The grid *)

Record GridPoint : Type := { lat : R; lon : R }.

(** One grid point with its two wind-stress series; [None] is a missing
    sample (NaN). *)
Record Column : Type :=
  { coord : GridPoint; taux : list (option R); tauy : list (option R) }.

Record SlabOutput : Type :=
  { slab_u : list (option R);
    slab_v : list (option R);
    slab_umag : list (option R) }.

(** ** [filter_windstress] *)

Section Filter.

(** [.astype("float32")] on a number *)
Variable float32 : R → R.

(** [taux.astype("float32") + 1j * tauy.astype("float32")]; the sum is
    null as soon as one component is. *)
Definition complex_windstress (tx ty : option R) : option complex :=
  x ← tx; y ← ty;
  Some (Cadd (RtoC (float32 x)) (Cmul Cj (RtoC (float32 y)))).

(** [xr.where(~T.isnull(), T, 0)] *)
Definition fill_zero (t : option complex) : complex := default C0 t.

Definition windstress (col : Column) : list complex :=
  fill_zero <$> zip_with complex_windstress (taux col) (tauy col).

(** [q.where(logical_not(T == 0))] *)
Definition mask_undefined (q T : list complex) : list (option complex) :=
  zip_with (λ ql Tl, if Ceq0 Tl then None else Some ql) q T.

(** [q.where(abs(q.coords["lat"]) > 4.0)] *)
Definition mask_equator (la : R) (q : list (option complex))
  : list (option complex) :=
  (λ ql, if Rgt_dec (Rabs la) 4 then ql else None) <$> q.

(** [real(q).astype("float32")], [imag(q).astype("float32")] *)
Definition real32 (q : list (option complex)) : list (option R) :=
  (λ ql : option complex, (λ z, float32 (re z)) <$> ql) <$> q.
Definition imag32 (q : list (option complex)) : list (option R) :=
  (λ ql : option complex, (λ z, float32 (im z)) <$> ql) <$> q.

(** Arithmetic on single-precision operands: the exact result, cast. *)
Definition square32 (x : R) : R := float32 (x ^ 2).
Definition add32 (x y : R) : R := float32 (x + y).
Definition sqrt32 (x : R) : R := float32 (sqrt x).

(** [(slab_u**2 + slab_v**2)**0.5] *)
Definition magnitude (u v : list (option R)) : list (option R) :=
  zip_with (λ ul vl, x ← ul; y ← vl;
                     Some (sqrt32 (add32 (square32 x) (square32 y)))) u v.

(** The Coriolis parameter in use at a point: the supplied field, or the
    one derived from the latitude. *)
Definition coriolis_at (f : option (GridPoint → R)) (p : GridPoint) : R :=
  match f with
  | Some g => g p
  | None => coriolis (lat p)
  end.

(** The recursion at one point, before any masking. *)
Definition integrate_column (epsilon rho H : R) (f : option (GridPoint → R))
           (dt : R) (col : Column) : option (list complex) :=
  let T := windstress col in
  let k := coefficients epsilon rho H (coriolis_at f (coord col)) dt in
  let n := length T in
  integrate C0 Cadd Cmul T
    (broadcast (d_1 k) n) (broadcast (d_2 k) n)
    (broadcast (c_0 k) n) (broadcast (c_2 k) n).

(** The masked complex series at one point. *)
Definition masked_column (col : Column) (q : list complex)
  : list (option complex) :=
  mask_equator (lat (coord col)) (mask_undefined q (windstress col)).

Definition output_of (q : list (option complex)) : SlabOutput :=
  let u := real32 q in
  let v := imag32 q in
  {| slab_u := u; slab_v := v; slab_umag := magnitude u v |}.

Definition filter_column (epsilon rho H : R) (f : option (GridPoint → R))
           (dt : R) (col : Column) : result SlabOutput :=
  match integrate_column epsilon rho H f dt col with
  | None => IndexError
  | Some q => Ok (output_of (masked_column col q))
  end.

(** All columns in turn; the first failure is the failure of the whole. *)
Fixpoint filter_columns (epsilon rho H : R) (f : option (GridPoint → R))
         (dt : R) (cols : list Column) : result (list SlabOutput) :=
  match cols with
  | [] => Ok []
  | col :: cols' =>
      match filter_column epsilon rho H f dt col with
      | Ok o =>
          match filter_columns epsilon rho H f dt cols' with
          | Ok os => Ok (o :: os)
          | AssertionError => AssertionError
          | IndexError => IndexError
          end
      | AssertionError => AssertionError
      | IndexError => IndexError
      end
  end.

Definition filter_windstress (time : list Z) (cols : list Column)
           (epsilon rho H : R) (f : option (GridPoint → R))
  : result (list SlabOutput) :=
  match time_step time with
  | Ok dt => filter_columns epsilon rho H f dt cols
  | AssertionError => AssertionError
  | IndexError => IndexError
  end.

End Filter.

(** The defaults of [filter_windstress] *)
Definition default_epsilon : R := 1 / 5 / 24 / 3600.
Definition default_rho : R := 1035.
Definition default_H : R := 10.

(** ** Sample inputs *)

(** An axis of three stamps, one hour and one hour plus 0.2 ms apart. *)
Definition axis_boundary : list Z := [0; 3600000000000; 7200000200000]%Z.

(** An axis of three stamps one hour apart. *)
Definition axis_hourly : list Z := [0; 3600000000000; 7200000000000]%Z.

(** A column at 30 degrees north whose third sample is a valid zero. *)
Definition column_30N : Column :=
  {| coord := {| lat := 30; lon := 0 |};
     taux := [Some 1; Some 1; Some 0];
     tauy := [Some 0; Some 0; Some 0] |}.

(** A column at 3 degrees north, with one missing sample. *)
Definition column_3N : Column :=
  {| coord := {| lat := 3; lon := 0 |};
     taux := [Some 1; None; Some 2];
     tauy := [Some 0; Some 1; Some 2] |}.

(** No rounding at all: single precision read as exact. *)
Definition no_rounding : R → R := λ x, x.

Close Scope R_scope.

(** Two Gaussian-integer series that part ways at their last index only. *)
Definition gauss_series : list GaussZ.t :=
  [(1, 0); (2, 1); (3, 0); (0, 4); (5, 5)]%Z.
Definition gauss_series' : list GaussZ.t :=
  [(1, 0); (2, 1); (3, 0); (0, 4); (-7, 9)]%Z.

(** ** [upsample_data]: the time axis of its result

    Of [upsample_data] the new time coordinate is embedded: the stamps
    cast to float, [np.arange] between the first and the last of them,
    and the cast back to [datetime64[ns]].  The interpolated values are
    not. *)

Open Scope R_scope.







(** [slab_model_H = 1  # Set to 1m and scale later] *)
Definition slab_model_H : R := 1.

(** ** Notions the further properties are stated with *)

(** The complex conjugate. *)
Definition Cconj (z : complex) : complex := mkC (re z) (- im z).

(** The axis of [n] stamps that starts at [t0] and steps by [d]. *)
Definition uniform_axis (t0 d : Z) (n : nat) : list Z :=
  (λ i : nat, t0 + Z.of_nat i * d)%Z <$> seq 0 n.

(** ** Further sample inputs *)

(** A column at 30 degrees north, and its mirror image at the equator: the
    same eastward stress, the northward stress reversed. *)
Definition column_north : Column :=
  {| coord := {| lat := 30; lon := 0 |};
     taux := [Some 1; Some 2; Some 3];
     tauy := [Some 4; Some 5; Some 6] |}.
Definition column_south : Column :=
  {| coord := {| lat := -30; lon := 0 |};
     taux := [Some 1; Some 2; Some 3];
     tauy := [Some (-4); Some (-5); Some (-6)] |}.

(** A column at 30 degrees north under a constant wind stress. *)
Definition column_constant : Column :=
  {| coord := {| lat := 30; lon := 0 |};
     taux := [Some 1; Some 1; Some 1; Some 1];
     tauy := [Some 2; Some 2; Some 2; Some 2] |}.

(** Two complex series with the same two-step differences: the second is
    the first plus a constant. *)
Definition series_ramp : list complex := [mkC 1 0; mkC 2 0; mkC 4 0].
Definition series_ramp_offset : list complex :=
  [mkC 6 5; mkC 7 5; mkC 9 5].


Close Scope R_scope.

(** * Properties *)

Example integrate_gauss_5 :
  GaussZ.integrate gauss_series
    (GaussZ.broadcast (0, -2)%Z 5) (GaussZ.broadcast (3, 0)%Z 5)
    (GaussZ.broadcast (1, 1)%Z 5) (GaussZ.broadcast (-1, -1)%Z 5)
  = Some [(0, 0); (0, 0); (2, 2); (-1, -3); (-3, 15)]%Z.
Proof. vm_compute. reflexivity. Qed.

(** The coefficient arrays are not read on a series of two steps. *)
Example integrate_gauss_2 :
  GaussZ.integrate [(1, 0); (2, 1)]%Z [] [] [] [] = Some [(0, 0); (0, 0)]%Z.
Proof. vm_compute. reflexivity. Qed.

(** A coefficient array shorter than the series is an index error. *)
Example integrate_gauss_short_coefficients :
  GaussZ.integrate gauss_series
    (GaussZ.broadcast (0, -2)%Z 5) (GaussZ.broadcast (3, 0)%Z 5)
    (GaussZ.broadcast (1, 1)%Z 4) (GaussZ.broadcast (-1, -1)%Z 5)
  = None.
Proof. vm_compute. reflexivity. Qed.

(** ** The kernel *)

Section KernelFacts.

Context {C : Type}.
Variable czero : C.
Variables cadd cmul : C → C → C.

Local Notation "x ⊕ y" := (cadd x y) (at level 50, left associativity).
Local Notation "x ⊗ y" := (cmul x y) (at level 40, left associativity).
Local Abbreviation body := (integrate_body cadd cmul).
Local Abbreviation obeys := (recurrence_at cadd cmul).

Lemma range_short n : n ≤ 2 → range 2 n = [].
Proof. intros Hn. unfold range. replace (n - 2) with 0 by lia. done. Qed.

Lemma length_zeros_like (T : list C) : length (zeros_like czero T) = length T.
Proof. apply length_replicate. Qed.

Lemma lookup_zeros_like (T : list C) i :
  i < length T → zeros_like czero T !! i = Some czero.
Proof. intros Hi. by apply lookup_replicate_2. Qed.

(** The body succeeds as soon as its eight reads and its write are in
    range, and then writes index [l] only. *)
Lemma integrate_body_in_range (T d_1 d_2 c_0 c_2 q : list C) l :
  2 ≤ l → l < length q → l < length T →
  l < length d_1 → l < length d_2 → l < length c_0 → l < length c_2 →
  ∃ d1 q1 d2 q2 c0 Tl c2 Tl2,
    d_1 !! (l - 1) = Some d1 ∧ q !! (l - 1) = Some q1 ∧
    d_2 !! (l - 2) = Some d2 ∧ q !! (l - 2) = Some q2 ∧
    c_0 !! l = Some c0 ∧ T !! l = Some Tl ∧
    c_2 !! (l - 2) = Some c2 ∧ T !! (l - 2) = Some Tl2 ∧
    body T d_1 d_2 c_0 c_2 q l
    = Some (<[l := d1 ⊗ q1 ⊕ d2 ⊗ q2 ⊕ c0 ⊗ Tl ⊕ c2 ⊗ Tl2]> q).
Proof.
  intros Hl Hq HT Hd1 Hd2 Hc0 Hc2.
  destruct (lookup_lt_is_Some_2 d_1 (l - 1)) as [d1 E1]; [lia|].
  destruct (lookup_lt_is_Some_2 q (l - 1)) as [q1 E2]; [lia|].
  destruct (lookup_lt_is_Some_2 d_2 (l - 2)) as [d2 E3]; [lia|].
  destruct (lookup_lt_is_Some_2 q (l - 2)) as [q2 E4]; [lia|].
  destruct (lookup_lt_is_Some_2 c_0 l) as [c0 E5]; [lia|].
  destruct (lookup_lt_is_Some_2 T l) as [Tl E6]; [lia|].
  destruct (lookup_lt_is_Some_2 c_2 (l - 2)) as [c2 E7]; [lia|].
  destruct (lookup_lt_is_Some_2 T (l - 2)) as [Tl2 E8]; [lia|].
  exists d1, q1, d2, q2, c0, Tl, c2, Tl2.
  repeat (split; [assumption|]).
  unfold integrate_body.
  rewrite E1, E2, E3, E4, E5, E6, E7, E8. simpl.
  by rewrite option_guard_True.
Qed.

(** The loop over [a, a+1, ..., a+k-1]: it ends, leaves every index
    outside that range as it was, and leaves behind a series that obeys
    the recursion at every index of the range. *)
Lemma for_each_range (T d_1 d_2 c_0 c_2 : list C) k :
  ∀ a (q : list C),
    2 ≤ a → a + k ≤ length q → length T = length q →
    length d_1 = length q → length d_2 = length q →
    length c_0 = length q → length c_2 = length q →
    ∃ q', for_each (body T d_1 d_2 c_0 c_2) (seq a k) q = Some q' ∧
          length q' = length q ∧
          (∀ i, i < a ∨ a + k ≤ i → q' !! i = q !! i) ∧
          (∀ l, a ≤ l < a + k → obeys T d_1 d_2 c_0 c_2 q' l).
Proof.
  induction k as [|k IH]; intros a q Ha Hk HT Hd1 Hd2 Hc0 Hc2.
  - exists q. simpl.
    split; [done|]. split; [done|]. split; [done | intros l Hl; lia].
  - destruct (integrate_body_in_range T d_1 d_2 c_0 c_2 q a)
      as (d1 & q1 & d2 & q2 & c0 & Tl & c2 & Tl2 &
          E1 & E2 & E3 & E4 & E5 & E6 & E7 & E8 & Hb); try lia.
    set (v := d1 ⊗ q1 ⊕ d2 ⊗ q2 ⊕ c0 ⊗ Tl ⊕ c2 ⊗ Tl2) in *.
    destruct (IH (S a) (<[a := v]> q)) as (q' & Hrun & Hlen & Hout & Hin);
      rewrite ?length_insert; try lia.
    rewrite length_insert in Hlen.
    exists q'. simpl. rewrite Hb. simpl.
    split; [exact Hrun|]. split; [exact Hlen|]. split.
    + intros i Hi. destruct (decide (i = a)) as [->|Hne]; [lia|].
      rewrite Hout by lia. by apply list_lookup_insert_ne.
    + intros l Hl. destruct (decide (l = a)) as [->|Hne].
      * exists d1, q1, d2, q2, c0, Tl, c2, Tl2.
        repeat (split; [first [assumption
          | rewrite Hout by lia; rewrite list_lookup_insert_ne by lia;
            assumption]|]).
        rewrite Hout by lia. apply list_lookup_insert_eq. lia.
      * apply Hin. lia.
Qed.

(** What [integrate] returns when the five arrays have one length. *)
Lemma integrate_spec (T d_1 d_2 c_0 c_2 : list C) :
  length d_1 = length T → length d_2 = length T →
  length c_0 = length T → length c_2 = length T →
  ∃ q, integrate czero cadd cmul T d_1 d_2 c_0 c_2 = Some q ∧
       length q = length T ∧
       (∀ i, i < 2 → i < length T → q !! i = Some czero) ∧
       (∀ l, 2 ≤ l < length T → obeys T d_1 d_2 c_0 c_2 q l).
Proof.
  intros Hd1 Hd2 Hc0 Hc2. unfold integrate, range.
  destruct (le_lt_dec (length T) 2) as [Hn|Hn].
  - replace (length T - 2) with 0 by lia. simpl.
    exists (zeros_like czero T).
    split; [done|]. split; [apply length_zeros_like|].
    split; [intros; by apply lookup_zeros_like | intros; lia].
  - destruct (for_each_range T d_1 d_2 c_0 c_2 (length T - 2) 2
                (zeros_like czero T))
      as (q & Hrun & Hlen & Hout & Hin);
      rewrite ?length_zeros_like; try lia.
    rewrite length_zeros_like in Hlen.
    exists q. split; [exact Hrun|]. split; [exact Hlen|]. split.
    + intros i Hi Hi'. rewrite Hout by lia. by apply lookup_zeros_like.
    + intros l Hl. apply Hin. lia.
Qed.

(** With coefficients held constant along the time axis, the recursion
    reads as four scalars. *)
Lemma obeys_broadcast (T q : list C) (d1 d2 c0 c2 : C) n l :
  obeys T (broadcast d1 n) (broadcast d2 n) (broadcast c0 n)
        (broadcast c2 n) q l →
  ∃ q1 q2 Tl Tl2,
    q !! (l - 1) = Some q1 ∧ q !! (l - 2) = Some q2 ∧
    T !! l = Some Tl ∧ T !! (l - 2) = Some Tl2 ∧
    q !! l = Some (d1 ⊗ q1 ⊕ d2 ⊗ q2 ⊕ c0 ⊗ Tl ⊕ c2 ⊗ Tl2).
Proof.
  intros (d1' & q1 & d2' & q2 & c0' & Tl & c2' & Tl2 &
          E1 & E2 & E3 & E4 & E5 & E6 & E7 & E8 & E9).
  unfold broadcast in *.
  apply lookup_replicate_1 in E1 as [-> _].
  apply lookup_replicate_1 in E3 as [-> _].
  apply lookup_replicate_1 in E5 as [-> _].
  apply lookup_replicate_1 in E7 as [-> _].
  by exists q1, q2, Tl, Tl2.
Qed.

(** C1. For a wind-stress series [T] of length [n] and a coefficient set
    [(c0, c2, d1, d2)] held constant across time, the kernel returns a
    series [q] of length [n] with [q_0 = q_1 = 0], whatever [T_0] and
    [T_1] are, and, for every [l] with [2 <= l <= n-1],
    [q_l = d1*q_{l-1} + d2*q_{l-2} + c0*T_l + c2*T_{l-2}]. *)
Theorem integrate_recursion (T : list C) (d1 d2 c0 c2 : C) :
  ∃ q,
    integrate czero cadd cmul T
      (broadcast d1 (length T)) (broadcast d2 (length T))
      (broadcast c0 (length T)) (broadcast c2 (length T)) = Some q ∧
    length q = length T ∧
    (∀ l, l < 2 → l < length T → q !! l = Some czero) ∧
    (∀ l, 2 ≤ l < length T →
       ∃ q1 q2 Tl Tl2,
         q !! (l - 1) = Some q1 ∧ q !! (l - 2) = Some q2 ∧
         T !! l = Some Tl ∧ T !! (l - 2) = Some Tl2 ∧
         q !! l = Some (d1 ⊗ q1 ⊕ d2 ⊗ q2 ⊕ c0 ⊗ Tl ⊕ c2 ⊗ Tl2)).
Proof.
  destruct (integrate_spec T
              (broadcast d1 (length T)) (broadcast d2 (length T))
              (broadcast c0 (length T)) (broadcast c2 (length T)))
    as (q & Hrun & Hlen & Hlow & Hrec);
    try apply length_replicate.
  exists q. repeat (split; [assumption|]).
  intros l Hl. eapply obeys_broadcast, Hrec, Hl.
Qed.

(** Two series that obey the same recursion over inputs that agree up to
    index [m] agree up to index [m]. *)
Lemma recursion_agrees (T T' d_1 d_2 c_0 c_2 q q' : list C) m :
  length q = length T → length q' = length T → length T' = length T →
  (∀ i, i < 2 → i < length T → q !! i = Some czero) →
  (∀ i, i < 2 → i < length T → q' !! i = Some czero) →
  (∀ l, 2 ≤ l < length T → obeys T d_1 d_2 c_0 c_2 q l) →
  (∀ l, 2 ≤ l < length T → obeys T' d_1 d_2 c_0 c_2 q' l) →
  (∀ i, i ≤ m → T !! i = T' !! i) →
  ∀ i, i ≤ m → q !! i = q' !! i.
Proof.
  intros Hq Hq' HT' Hlow Hlow' Hrec Hrec' Hagree i.
  induction i as [i IH] using lt_wf_ind. intros Hi.
  destruct (le_lt_dec (length T) i) as [Hout|Hin].
  - rewrite !lookup_ge_None_2; [done | lia | lia].
  - destruct (le_lt_dec 2 i) as [Hbig|Hsmall].
    + destruct (Hrec i) as (d1 & q1 & d2 & q2 & c0 & Tl & c2 & Tl2 &
          E1 & E2 & E3 & E4 & E5 & E6 & E7 & E8 & E9); [lia|].
      destruct (Hrec' i) as (d1' & q1' & d2' & q2' & c0' & Tl' & c2' &
          Tl2' & F1 & F2 & F3 & F4 & F5 & F6 & F7 & F8 & F9); [lia|].
      rewrite E9, F9.
      rewrite (IH (i - 1)) in E2 by lia.
      rewrite (IH (i - 2)) in E4 by lia.
      rewrite (Hagree i) in E6 by lia.
      rewrite (Hagree (i - 2)) in E8 by lia.
      congruence.
    + by rewrite Hlow, Hlow' by lia.
Qed.

(** C7. The recursion is causal: when two input series of one length agree
    on every index up to and including [l], whatever they are at the
    indices after [l], the two outputs agree on [q_0 .. q_l]. *)
Theorem integrate_causal (T T' d_1 d_2 c_0 c_2 : list C) (l : nat) :
  length T' = length T →
  length d_1 = length T → length d_2 = length T →
  length c_0 = length T → length c_2 = length T →
  (∀ i, i ≤ l → T !! i = T' !! i) →
  ∃ q q',
    integrate czero cadd cmul T d_1 d_2 c_0 c_2 = Some q ∧
    integrate czero cadd cmul T' d_1 d_2 c_0 c_2 = Some q' ∧
    ∀ i, i ≤ l → q !! i = q' !! i.
Proof.
  intros HT' Hd1 Hd2 Hc0 Hc2 Hagree.
  destruct (integrate_spec T d_1 d_2 c_0 c_2)
    as (q & Hrun & Hlen & Hlow & Hrec); try assumption.
  destruct (integrate_spec T' d_1 d_2 c_0 c_2)
    as (q' & Hrun' & Hlen' & Hlow' & Hrec'); try congruence.
  rewrite HT' in Hlen', Hlow', Hrec'.
  exists q, q'. split; [exact Hrun|]. split; [exact Hrun'|].
  by apply (recursion_agrees T T' d_1 d_2 c_0 c_2 q q' l).
Qed.

(** C10. On a series of fewer than three steps the loop has no index to
    visit, and the kernel returns the all-zero series of the length of
    its input, whatever the coefficient arrays hold. *)
Theorem integrate_short (T d_1 d_2 c_0 c_2 : list C) :
  length T ≤ 2 →
  range 2 (length T) = [] ∧
  integrate czero cadd cmul T d_1 d_2 c_0 c_2
  = Some (replicate (length T) czero).
Proof.
  intros Hn. split; [by apply range_short|].
  unfold integrate. by rewrite range_short.
Qed.

(** A series that obeys the recursion over an all-zero input is all zero,
    in any arithmetic where a product with zero and the sum of two zeros
    are zero. *)
Lemma recursion_zero (T d_1 d_2 c_0 c_2 q : list C) :
  (∀ x, x ⊗ czero = czero) → czero ⊕ czero = czero →
  length q = length T →
  (∀ i, i < 2 → i < length T → q !! i = Some czero) →
  (∀ l, 2 ≤ l < length T → obeys T d_1 d_2 c_0 c_2 q l) →
  (∀ i Ti, T !! i = Some Ti → Ti = czero) →
  q = replicate (length T) czero.
Proof.
  intros Hmul Hadd Hlen Hlow Hrec HT.
  apply list_eq. intros i.
  induction i as [i IH] using lt_wf_ind.
  destruct (le_lt_dec (length T) i) as [Hout|Hin].
  - rewrite lookup_ge_None_2 by lia.
    symmetry. apply lookup_replicate_None. lia.
  - rewrite lookup_replicate_2 by lia.
    destruct (le_lt_dec 2 i) as [Hbig|Hsmall]; [|apply Hlow; lia].
    destruct (Hrec i) as (d1 & q1 & d2 & q2 & c0 & Tl & c2 & Tl2 &
        E1 & E2 & E3 & E4 & E5 & E6 & E7 & E8 & E9); [lia|].
    rewrite IH, lookup_replicate_2 in E2 by lia.
    rewrite IH, lookup_replicate_2 in E4 by lia.
    apply HT in E6. apply HT in E8. simplify_eq.
    rewrite E9. by rewrite !Hmul, !Hadd.
Qed.

End KernelFacts.

(** ** Complex arithmetic *)

Section ComplexFacts.

Local Open Scope R_scope.

Lemma complex_eq (a b : complex) : re a = re b → im a = im b → a = b.
Proof. destruct a, b. simpl. by intros -> ->. Qed.

Lemma Cmul_0_r (a : complex) : Cmul a C0 = C0.
Proof. apply complex_eq; simpl; ring. Qed.

Lemma Cadd_0_0 : Cadd C0 C0 = C0.
Proof. apply complex_eq; simpl; ring. Qed.

Lemma Ceq0_true (z : complex) : Ceq0 z = true ↔ z = C0.
Proof.
  unfold Ceq0. split.
  - destruct (Req_dec_T (re z) 0) as [Hr|]; [|done].
    destruct (Req_dec_T (im z) 0) as [Hi|]; [|done].
    intros _. by apply complex_eq.
  - intros ->. simpl.
    destruct (Req_dec_T 0 0) as [_|Hne]; [done | by destruct Hne].
Qed.

(** Dividing by a real number, component by component. *)
Lemma Cdiv_real (a : complex) (r : R) :
  Cdiv a (RtoC r) = mkC (re a * r * (/ r * / r)) (im a * r * (/ r * / r)).
Proof.
  apply complex_eq; simpl; unfold Rdiv;
    replace (r * r + 0 * 0) with (r * r) by ring;
    rewrite Rinv_mult; ring.
Qed.

(** C2. With no explicit [f], the coefficient set of a grid point is
    [f = 2 * 7.2921e-5 * sin(lat)] (the latitude, kept in degrees, is
    turned into radians for the sine),
    [c0 = -1 / ((epsilon + i f) rho H)], [c2 = -c0],
    [d1 = -2 i f dt] and [d2 = 1 - 2 epsilon dt]. *)
Theorem coefficients_formulas (epsilon rho H dt : R) (p : GridPoint) :
  let f := coriolis_at None p in
  let k := coefficients epsilon rho H f dt in
  f = 2 * 7.2921e-5 * sin (lat p * PI / 180) ∧
  c_0 k = Cdiv (RtoC (-1))
            (Cmul (Cmul (Cadd (RtoC epsilon) (Cmul Cj (RtoC f)))
                        (RtoC rho)) (RtoC H)) ∧
  c_2 k = Copp (c_0 k) ∧
  d_1 k = Copp (Cmul (Cmul (Cmul (RtoC 2) Cj) (RtoC f)) (RtoC dt)) ∧
  d_2 k = RtoC (1 - 2 * epsilon * dt).
Proof.
  intros f k. split; [|split; [|split; [|split]]].
  - unfold f, coriolis_at, coriolis, deg2rad. f_equal. f_equal. field.
  - unfold k, coefficients. cbn [c_0].
    rewrite !Cdiv_real.
    apply complex_eq; simpl; unfold Rdiv;
      set (N := (epsilon + (0 * f - 1 * 0)) * (epsilon + (0 * f - 1 * 0))
                + (0 + (0 * 0 + 1 * f)) * (0 + (0 * 0 + 1 * f))).
    + match goal with |- _ = _ * / ?D =>
        replace D with (N * (rho * rho) * (H * H)) by (unfold N; ring)
      end.
      rewrite !Rinv_mult. ring.
    + match goal with |- _ = _ * / ?D =>
        replace D with (N * (rho * rho) * (H * H)) by (unfold N; ring)
      end.
      rewrite !Rinv_mult. ring.
  - reflexivity.
  - unfold k, coefficients. cbn [d_1]. apply complex_eq; simpl; ring.
  - reflexivity.
Qed.

(** C6. Zero input is a fixed point of the filter: for every coefficient
    set, if every sample [T_l] is zero then every [q_l] is zero. *)
Theorem zero_forcing_invariant (T : list complex) (d1 d2 c0 c2 : complex) :
  (∀ l Tl, T !! l = Some Tl → Tl = C0) →
  integrate C0 Cadd Cmul T
    (broadcast d1 (length T)) (broadcast d2 (length T))
    (broadcast c0 (length T)) (broadcast c2 (length T))
  = Some (replicate (length T) C0).
Proof.
  intros HT.
  destruct (integrate_spec C0 Cadd Cmul T
              (broadcast d1 (length T)) (broadcast d2 (length T))
              (broadcast c0 (length T)) (broadcast c2 (length T)))
    as (q & Hrun & Hlen & Hlow & Hrec);
    try apply length_replicate.
  rewrite Hrun. f_equal.
  eapply recursion_zero; eauto using Cmul_0_r, Cadd_0_0.
Qed.

End ComplexFacts.

(** ** Masking and the derived outputs *)

Section FilterFacts.

Local Open Scope R_scope.

Variable float32 : R → R.


(** The recursion at a column never reads or writes out of range. *)
Lemma integrate_column_total epsilon rho H f dt col :
  ∃ q, integrate_column float32 epsilon rho H f dt col = Some q ∧
       length q = length (windstress float32 col).
Proof.
  unfold integrate_column.
  edestruct (integrate_spec C0 Cadd Cmul (windstress float32 col))
    as (q & Hrun & Hlen & _); [apply length_replicate ..|].
  exists q. split; [exact Hrun | exact Hlen].
Qed.

Lemma filter_column_Ok epsilon rho H f dt col :
  ∃ q, integrate_column float32 epsilon rho H f dt col = Some q ∧
       length q = length (windstress float32 col) ∧
       filter_column float32 epsilon rho H f dt col
       = Ok (output_of float32 (masked_column float32 col q)).
Proof.
  destruct (integrate_column_total epsilon rho H f dt col)
    as (q & Hrun & Hlen).
  exists q. split; [exact Hrun|]. split; [exact Hlen|].
  unfold filter_column. by rewrite Hrun.
Qed.

Lemma lookup_masked_column col (q : list complex) l :
  masked_column float32 col q !! l
  = ql ← q !! l; Tl ← windstress float32 col !! l;
    Some (if Rgt_dec (Rabs (lat (coord col))) 4
          then (if Ceq0 Tl then None else Some ql) else None).
Proof.
  unfold masked_column, mask_equator, mask_undefined.
  rewrite list_lookup_fmap, lookup_zip_with.
  destruct (q !! l); [|done]. simpl. by destruct (_ !! l).
Qed.

Lemma length_masked_column col (q : list complex) :
  length q = length (windstress float32 col) →
  length (masked_column float32 col q) = length (windstress float32 col).
Proof.
  intros Hlen. unfold masked_column, mask_equator, mask_undefined.
  rewrite length_fmap, length_zip_with. lia.
Qed.

(** The three outputs at an index, from the masked complex value there. *)
Lemma lookup_output_of (m : list (option complex)) l :
  slab_u (output_of float32 m) !! l
    = (λ ql : option complex, (λ z, float32 (re z)) <$> ql) <$> m !! l ∧
  slab_v (output_of float32 m) !! l
    = (λ ql : option complex, (λ z, float32 (im z)) <$> ql) <$> m !! l ∧
  slab_umag (output_of float32 m) !! l
    = (λ ql : option complex,
         (λ z, sqrt32 float32
                 (add32 float32 (square32 float32 (float32 (re z)))
                                (square32 float32 (float32 (im z))))) <$> ql)
      <$> m !! l.
Proof.
  unfold output_of, magnitude, real32, imag32. cbn [slab_u slab_v slab_umag].
  rewrite lookup_zip_with, !list_lookup_fmap.
  destruct (m !! l) as [[z|]|]; done.
Qed.

Lemma lookup_output_of_None (m : list (option complex)) l :
  m !! l = Some None →
  slab_u (output_of float32 m) !! l = Some None ∧
  slab_v (output_of float32 m) !! l = Some None ∧
  slab_umag (output_of float32 m) !! l = Some None.
Proof.
  intros Hm. destruct (lookup_output_of m l) as (-> & -> & ->).
  by rewrite Hm.
Qed.

Lemma length_output_of (m : list (option complex)) :
  length (slab_u (output_of float32 m)) = length m ∧
  length (slab_v (output_of float32 m)) = length m ∧
  length (slab_umag (output_of float32 m)) = length m.
Proof.
  unfold output_of, magnitude, real32, imag32. cbn [slab_u slab_v slab_umag].
  rewrite length_zip_with, !length_fmap. lia.
Qed.

(** Where the zero-filled wind stress is zero, the three outputs are
    invalid. *)
Lemma zero_windstress_masked epsilon rho H f dt col l :
  windstress float32 col !! l = Some C0 →
  ∃ out, filter_column float32 epsilon rho H f dt col = Ok out ∧
         slab_u out !! l = Some None ∧
         slab_v out !! l = Some None ∧
         slab_umag out !! l = Some None.
Proof.
  intros HT.
  destruct (filter_column_Ok epsilon rho H f dt col)
    as (q & _ & Hlen & Hout).
  eexists. split; [exact Hout|].
  apply lookup_output_of_None. rewrite lookup_masked_column, HT.
  destruct (lookup_lt_is_Some_2 q l) as [ql ->].
  { rewrite Hlen. by apply lookup_lt_is_Some_1; eexists. }
  simpl. destruct (Rgt_dec _ _); [|done].
  by rewrite (proj2 (Ceq0_true C0)).
Qed.

(** A missing sample enters the recursion as zero. *)
Lemma windstress_missing col l tx ty :
  taux col !! l = Some tx → tauy col !! l = Some ty →
  tx = None ∨ ty = None →
  windstress float32 col !! l = Some C0.
Proof.
  intros Hx Hy Hnone. unfold windstress.
  rewrite list_lookup_fmap, lookup_zip_with, Hx, Hy. simpl.
  destruct Hnone as [-> | ->]; [done | by destruct tx].
Qed.

(** So does a valid sample whose two components are zero, once the cast
    to single precision keeps zero. *)
Lemma windstress_valid_zero col l :
  float32 0 = 0 →
  taux col !! l = Some (Some 0) → tauy col !! l = Some (Some 0) →
  windstress float32 col !! l = Some C0.
Proof.
  intros H0 Hx Hy. unfold windstress.
  rewrite list_lookup_fmap, lookup_zip_with, Hx, Hy. simpl.
  f_equal. unfold fill_zero. simpl. rewrite H0.
  apply complex_eq; simpl; ring.
Qed.

(** C9. A valid sample whose two components are exactly zero is masked
    all the same: the mask after the recursion is [T == 0] on the
    zero-filled series, where such a sample and a missing one are the
    same, so the column is filtered exactly as if the sample were
    missing, and its output at that index is invalid. *)
Theorem valid_zero_sample_masked epsilon rho H f dt col l :
  float32 0 = 0 →
  taux col !! l = Some (Some 0) → tauy col !! l = Some (Some 0) →
  filter_column float32 epsilon rho H f dt col
  = filter_column float32 epsilon rho H f dt
      {| coord := coord col;
         taux := <[l := None]> (taux col);
         tauy := <[l := None]> (tauy col) |} ∧
  ∃ out, filter_column float32 epsilon rho H f dt col = Ok out ∧
         slab_u out !! l = Some None ∧
         slab_v out !! l = Some None ∧
         slab_umag out !! l = Some None.
Proof.
  intros H0 Hx Hy.
  pose proof (windstress_valid_zero col l H0 Hx Hy) as HT.
  split; [|by apply zero_windstress_masked].
  set (col' := {| coord := coord col; taux := <[l := None]> (taux col);
                  tauy := <[l := None]> (tauy col) |}).
  assert (windstress float32 col' = windstress float32 col) as HTT.
  { apply list_eq. intros i. destruct (decide (i = l)) as [->|Hne].
    - rewrite HT. apply (windstress_missing col' l None None); simpl;
        try (apply list_lookup_insert_eq, lookup_lt_is_Some_1; by eexists).
      by left.
    - unfold windstress, col'. simpl.
      by rewrite !list_lookup_fmap, !lookup_zip_with,
        !list_lookup_insert_ne. }
  unfold filter_column, integrate_column, masked_column.
  by rewrite HTT.
Qed.

(** C5. At a grid point with [|lat| <= 4] every time step of the three
    outputs is invalid, whatever the wind stress there is and whether it
    is missing or not; at a point with [|lat| > 4] this rule masks
    nothing: the output is the one the missing-data mask alone gives. *)
Theorem equatorial_masking epsilon rho H f dt col :
  (Rabs (lat (coord col)) <= 4 →
   ∃ out, filter_column float32 epsilon rho H f dt col = Ok out ∧
          length (slab_u out) = length (windstress float32 col) ∧
          length (slab_v out) = length (windstress float32 col) ∧
          length (slab_umag out) = length (windstress float32 col) ∧
          ∀ l : nat, (l < length (windstress float32 col))%nat →
               slab_u out !! l = Some None ∧
               slab_v out !! l = Some None ∧
               slab_umag out !! l = Some None) ∧
  (4 < Rabs (lat (coord col)) →
   ∃ q, integrate_column float32 epsilon rho H f dt col = Some q ∧
        filter_column float32 epsilon rho H f dt col
        = Ok (output_of float32
                (mask_undefined q (windstress float32 col)))).
Proof.
  destruct (filter_column_Ok epsilon rho H f dt col)
    as (q & Hrun & Hlen & Hout).
  split; intros Hlat.
  - eexists. split; [exact Hout|].
    pose proof (length_masked_column col q Hlen) as Hm.
    destruct (length_output_of (masked_column float32 col q))
      as (-> & -> & ->).
    repeat (split; [exact Hm|]).
    intros l Hl. apply lookup_output_of_None.
    rewrite lookup_masked_column.
    destruct (lookup_lt_is_Some_2 q l) as [ql ->]; [lia|].
    destruct (lookup_lt_is_Some_2 (windstress float32 col) l)
      as [Tl ->]; [lia|].
    simpl. destruct (Rgt_dec _ _) as [Hgt|]; [lra | done].
  - exists q. split; [exact Hrun|]. rewrite Hout. do 2 f_equal.
    unfold masked_column, mask_equator.
    destruct (Rgt_dec _ _) as [|Hngt]; [|lra].
    apply list_fmap_id.
Qed.

(** The part of the missing-data rule that holds: a missing sample enters
    the recursion as zero, the column is filtered without any error, and
    the outputs at that index are invalid. *)
Lemma missing_sample_masked epsilon rho H f dt col l tx ty :
  taux col !! l = Some tx → tauy col !! l = Some ty →
  tx = None ∨ ty = None →
  windstress float32 col !! l = Some C0 ∧
  ∃ out, filter_column float32 epsilon rho H f dt col = Ok out ∧
         slab_u out !! l = Some None ∧
         slab_v out !! l = Some None ∧
         slab_umag out !! l = Some None.
Proof.
  intros Hx Hy Hnone.
  pose proof (windstress_missing col l tx ty Hx Hy Hnone) as HT.
  split; [exact HT | by apply zero_windstress_masked].
Qed.

(** C8. The three outputs come from the masked complex series [q] as
    [u = Re(q)] and [v = Im(q)], both cast to single precision, and
    [speed = sqrt(u^2 + v^2)] of those two, worked out in single
    precision; each has the length of [q] and is invalid exactly at the
    indices where [q] is. *)
Theorem derived_outputs epsilon rho H f dt col :
  ∃ q out,
    integrate_column float32 epsilon rho H f dt col = Some q ∧
    filter_column float32 epsilon rho H f dt col = Ok out ∧
    length (slab_u out) = length q ∧
    length (slab_v out) = length q ∧
    length (slab_umag out) = length q ∧
    ∀ l,
      match masked_column float32 col q !! l with
      | Some (Some z) =>
          slab_u out !! l = Some (Some (float32 (re z))) ∧
          slab_v out !! l = Some (Some (float32 (im z))) ∧
          slab_umag out !! l
          = Some (Some (float32
                          (sqrt (float32
                                   (float32 (float32 (re z) ^ 2)
                                    + float32 (float32 (im z) ^ 2))))))
      | Some None =>
          slab_u out !! l = Some None ∧
          slab_v out !! l = Some None ∧
          slab_umag out !! l = Some None
      | None =>
          slab_u out !! l = None ∧
          slab_v out !! l = None ∧
          slab_umag out !! l = None
      end.
Proof.
  destruct (filter_column_Ok epsilon rho H f dt col)
    as (q & Hrun & Hlen & Hout).
  exists q. eexists. split; [exact Hrun|]. split; [exact Hout|].
  pose proof (length_masked_column col q Hlen) as Hm.
  destruct (length_output_of (masked_column float32 col q))
    as (-> & -> & ->).
  repeat (split; [congruence|]).
  intros l.
  destruct (lookup_output_of (masked_column float32 col q) l)
    as (-> & -> & ->).
  by destruct (masked_column float32 col q !! l) as [[z|]|].
Qed.

End FilterFacts.

(** ** The uniform-step check *)

Section TimeStepFacts.

Local Open Scope R_scope.

Variable float32 : R → R.

Lemma std_pair (a b : R) : std [a; b] = Rabs (a - b) / 2.
Proof.
  unfold std, mean, Rsum. cbn [fmap list_fmap foldr length].
  replace (INR 2) with 2 by (simpl; lra).
  match goal with |- sqrt ?x = _ =>
    replace x with (((a - b) / 2)²) by (unfold Rsqr; field)
  end.
  rewrite sqrt_Rsqr_abs. unfold Rdiv. rewrite Rabs_mult.
  f_equal. apply Rabs_pos_eq. lra.
Qed.

Lemma mean_pair (a b : R) : mean [a; b] = (a + b) / 2.
Proof.
  unfold mean, Rsum. cbn [foldr length].
  replace (INR 2) with 2 by (simpl; lra). field.
Qed.

Lemma time_step_rejected time :
  astype_float (diff time) = [] ∨
  1e-4 <= std (astype_float (diff time)) / 1e9 →
  time_step time = AssertionError.
Proof.
  unfold time_step. intros [-> | Hstd]; [done|].
  destruct (astype_float (diff time)); [done|].
  destruct (Rlt_dec _ _); [lra | done].
Qed.

Lemma time_step_accepted time :
  astype_float (diff time) ≠ [] →
  std (astype_float (diff time)) / 1e9 < 1e-4 →
  time_step time = Ok (mean (astype_float (diff time)) / 1e9).
Proof.
  unfold time_step. intros Hne Hstd.
  destruct (astype_float (diff time)); [done|].
  destruct (Rlt_dec _ _); [done | lra].
Qed.

(** Every column is filtered, in order, with the one time step. *)
Lemma filter_columns_Ok epsilon rho H f dt cols :
  ∃ outs,
    filter_columns float32 epsilon rho H f dt cols = Ok outs ∧
    Forall2 (λ col out,
               filter_column float32 epsilon rho H f dt col = Ok out)
            cols outs.
Proof.
  induction cols as [|col cols (outs & Hrun & Hall)].
  - exists []. split; [done | constructor].
  - destruct (filter_column_Ok float32 epsilon rho H f dt col)
      as (q & _ & _ & Hcol).
    eexists (_ :: outs). simpl. rewrite Hcol, Hrun.
    split; [done|]. by constructor.
Qed.

(** C4, as the code has it. The check is on the standard deviation of the
    consecutive time differences taken in seconds, against the absolute
    bound 1e-4: on an axis with fewer than two stamps, or when that
    standard deviation is not below 1e-4, [filter_windstress] fails on
    its assertion, whatever the columns hold and before any of them is
    looked at; otherwise the mean difference in seconds is the time step
    [dt], and every column is filtered with the coefficients of that one
    [dt]. *)
Theorem uniform_step_check time cols epsilon rho H f :
  (astype_float (diff time) = [] ∨
   1e-4 <= std (astype_float (diff time)) / 1e9 →
   time_step time = AssertionError ∧
   filter_windstress float32 time cols epsilon rho H f = AssertionError) ∧
  (astype_float (diff time) ≠ [] →
   std (astype_float (diff time)) / 1e9 < 1e-4 →
   ∃ dt outs,
     dt = mean (astype_float (diff time)) / 1e9 ∧
     time_step time = Ok dt ∧
     filter_windstress float32 time cols epsilon rho H f = Ok outs ∧
     Forall2 (λ col out,
                filter_column float32 epsilon rho H f dt col = Ok out)
             cols outs).
Proof.
  split.
  - intros Hrej. apply time_step_rejected in Hrej.
    split; [exact Hrej|]. unfold filter_windstress. by rewrite Hrej.
  - intros Hne Hstd.
    pose proof (time_step_accepted time Hne Hstd) as Hacc.
    destruct (filter_columns_Ok epsilon rho H f
                (mean (astype_float (diff time)) / 1e9) cols)
      as (outs & Hrun & Hall).
    eexists _, outs. split; [reflexivity|]. split; [exact Hacc|].
    split; [|exact Hall]. unfold filter_windstress. by rewrite Hacc.
Qed.

End TimeStepFacts.

(** ** Worked instances *)

Section Instances.

Local Open Scope R_scope.

Lemma diff_axis_boundary :
  astype_float (diff axis_boundary) = [3600000000000; 3600000200000].
Proof.
  unfold astype_float.
  replace (diff axis_boundary) with [3600000000000; 3600000200000]%Z
    by (vm_compute; reflexivity).
  reflexivity.
Qed.

Lemma diff_axis_hourly :
  astype_float (diff axis_hourly) = [3600000000000; 3600000000000].
Proof.
  unfold astype_float.
  replace (diff axis_hourly) with [3600000000000; 3600000000000]%Z
    by (vm_compute; reflexivity).
  reflexivity.
Qed.

Lemma std_axis_boundary : std (astype_float (diff axis_boundary)) = 100000.
Proof.
  rewrite diff_axis_boundary, std_pair.
  unfold Rabs. destruct (Rcase_abs _); lra.
Qed.

Lemma std_axis_hourly : std (astype_float (diff axis_hourly)) = 0.
Proof.
  rewrite diff_axis_hourly, std_pair.
  unfold Rabs. destruct (Rcase_abs _); lra.
Qed.

Lemma mean_axis_boundary :
  mean (astype_float (diff axis_boundary)) = 3600000100000.
Proof. rewrite diff_axis_boundary, mean_pair. lra. Qed.

(** C4, as stated, fails on the code. On [axis_boundary] the standard
    deviation of the time differences is 1e-4 s: it does not exceed
    1e-4, and it is far below 1e-4 times the spacing of 3600 s, so the
    claim has the axis accepted; the code fails on its assertion. *)
Lemma tolerance_not_exceeded_yet_rejected :
  ¬ (1e-4 < std (astype_float (diff axis_boundary)) / 1e9) ∧
  ¬ (1e-4 * mean (astype_float (diff axis_boundary))
     < std (astype_float (diff axis_boundary))) ∧
  filter_windstress no_rounding axis_boundary [column_30N]
    default_epsilon default_rho default_H None = AssertionError.
Proof.
  split; [|split].
  - rewrite std_axis_boundary. lra.
  - rewrite std_axis_boundary, mean_axis_boundary. lra.
  - unfold filter_windstress. rewrite time_step_rejected; [done|].
    right. rewrite std_axis_boundary. lra.
Qed.

(** C3, on the code. The third sample of [column_30N] is valid (both
    components are the number zero, none is missing) and the point is
    outside the equatorial band, yet the outputs at that index are
    invalid: the mask is read off the zero-filled series, not off the
    missing samples. *)
Theorem valid_zero_marked_invalid :
  taux column_30N !! 2%nat = Some (Some 0) ∧
  tauy column_30N !! 2%nat = Some (Some 0) ∧
  4 < Rabs (lat (coord column_30N)) ∧
  ∃ out,
    filter_column no_rounding default_epsilon default_rho default_H None
      3600 column_30N = Ok out ∧
    slab_u out !! 2%nat = Some None ∧
    slab_v out !! 2%nat = Some None ∧
    slab_umag out !! 2%nat = Some None.
Proof.
  split; [done|]. split; [done|]. split.
  - simpl. unfold Rabs. destruct (Rcase_abs _); lra.
  - by apply zero_windstress_masked, windstress_valid_zero.
Qed.

End Instances.

(** ** The theorems at sample inputs *)

Lemma integrate_recursion_witness :
  2 ≤ 2 < length gauss_series ∧
  ∃ q,
    GaussZ.integrate gauss_series
      (GaussZ.broadcast (0, -2)%Z 5) (GaussZ.broadcast (3, 0)%Z 5)
      (GaussZ.broadcast (1, 1)%Z 5) (GaussZ.broadcast (-1, -1)%Z 5)
    = Some q ∧
    q !! 0 = Some GaussZ.zero ∧ q !! 1 = Some GaussZ.zero ∧
    ∃ q1 q2 Tl Tl2,
      q !! 1 = Some q1 ∧ q !! 0 = Some q2 ∧
      gauss_series !! 2 = Some Tl ∧ gauss_series !! 0 = Some Tl2 ∧
      q !! 2 = Some (GaussZ.add
                       (GaussZ.add
                          (GaussZ.add (GaussZ.mul (0, -2)%Z q1)
                                      (GaussZ.mul (3, 0)%Z q2))
                          (GaussZ.mul (1, 1)%Z Tl))
                       (GaussZ.mul (-1, -1)%Z Tl2)).
Proof.
  split; [simpl; lia|].
  destruct (integrate_recursion GaussZ.zero GaussZ.add GaussZ.mul
              gauss_series (0, -2)%Z (3, 0)%Z (1, 1)%Z (-1, -1)%Z)
    as (q & Hrun & _ & Hlow & Hrec).
  exists q. split; [exact Hrun|].
  split; [apply Hlow; simpl; lia|]. split; [apply Hlow; simpl; lia|].
  apply (Hrec 2). simpl; lia.
Defined.

Lemma integrate_causal_witness :
  (∀ i, i ≤ 3 → gauss_series !! i = gauss_series' !! i) ∧
  gauss_series !! 4 ≠ gauss_series' !! 4 ∧
  ∃ q q',
    GaussZ.integrate gauss_series
      (GaussZ.broadcast (0, -2)%Z 5) (GaussZ.broadcast (3, 0)%Z 5)
      (GaussZ.broadcast (1, 1)%Z 5) (GaussZ.broadcast (-1, -1)%Z 5)
    = Some q ∧
    GaussZ.integrate gauss_series'
      (GaussZ.broadcast (0, -2)%Z 5) (GaussZ.broadcast (3, 0)%Z 5)
      (GaussZ.broadcast (1, 1)%Z 5) (GaussZ.broadcast (-1, -1)%Z 5)
    = Some q' ∧
    ∀ i, i ≤ 3 → q !! i = q' !! i.
Proof.
  assert (∀ i, i ≤ 3 → gauss_series !! i = gauss_series' !! i) as Hagree.
  { intros [|[|[|[|i]]]] Hi; [reflexivity .. | lia]. }
  split; [exact Hagree|]. split; [discriminate|].
  apply (integrate_causal GaussZ.zero GaussZ.add GaussZ.mul
           gauss_series gauss_series'); [reflexivity .. | exact Hagree].
Defined.

Lemma integrate_short_witness :
  length [(1, 0); (2, 1)]%Z ≤ 2 ∧
  range 2 (length [(1, 0); (2, 1)]%Z) = [] ∧
  GaussZ.integrate [(1, 0); (2, 1)]%Z [] [] [] []
  = Some [GaussZ.zero; GaussZ.zero].
Proof.
  split; [simpl; lia|].
  apply (integrate_short GaussZ.zero GaussZ.add GaussZ.mul
           [(1, 0); (2, 1)]%Z [] [] [] []).
  simpl; lia.
Defined.

Lemma zero_forcing_invariant_witness :
  (∀ l Tl, [C0; C0; C0] !! l = Some Tl → Tl = C0) ∧
  integrate C0 Cadd Cmul [C0; C0; C0]
    (broadcast (mkC 0 (-2)) 3) (broadcast (mkC 3 0) 3)
    (broadcast (mkC 1 1) 3) (broadcast (mkC (-1) (-1)) 3)
  = Some [C0; C0; C0].
Proof.
  assert (∀ l Tl, [C0; C0; C0] !! l = Some Tl → Tl = C0) as Hzero.
  { intros [|[|[|[|l]]]] Tl Hl; simpl in Hl; congruence. }
  split; [exact Hzero|].
  apply (zero_forcing_invariant [C0; C0; C0]). exact Hzero.
Defined.

Lemma valid_zero_sample_masked_witness :
  no_rounding 0%R = 0%R ∧
  taux column_30N !! 2 = Some (Some 0%R) ∧
  tauy column_30N !! 2 = Some (Some 0%R) ∧
  ∃ out,
    filter_column no_rounding default_epsilon default_rho default_H None
      3600%R column_30N = Ok out ∧
    slab_u out !! 2 = Some None ∧
    slab_v out !! 2 = Some None ∧
    slab_umag out !! 2 = Some None.
Proof.
  split; [reflexivity|]. split; [reflexivity|]. split; [reflexivity|].
  apply (valid_zero_sample_masked no_rounding default_epsilon default_rho
           default_H None 3600%R column_30N 2); reflexivity.
Defined.

Lemma equatorial_masking_witness :
  (Rabs (lat (coord column_3N)) <= 4)%R ∧
  (4 < Rabs (lat (coord column_30N)))%R ∧
  (∃ out,
     filter_column no_rounding default_epsilon default_rho default_H None
       3600%R column_3N = Ok out ∧
     slab_u out !! 0 = Some None ∧
     slab_v out !! 0 = Some None ∧
     slab_umag out !! 0 = Some None) ∧
  ∃ q,
    integrate_column no_rounding default_epsilon default_rho default_H None
      3600%R column_30N = Some q ∧
    filter_column no_rounding default_epsilon default_rho default_H None
      3600%R column_30N
    = Ok (output_of no_rounding
            (mask_undefined q (windstress no_rounding column_30N))).
Proof.
  assert (Rabs (lat (coord column_3N)) <= 4)%R as Hlow.
  { simpl. unfold Rabs. destruct (Rcase_abs _); lra. }
  assert (4 < Rabs (lat (coord column_30N)))%R as Hhigh.
  { simpl. unfold Rabs. destruct (Rcase_abs _); lra. }
  split; [exact Hlow|]. split; [exact Hhigh|]. split.
  - destruct (proj1 (equatorial_masking no_rounding default_epsilon
                       default_rho default_H None 3600%R column_3N) Hlow)
      as (out & Hout & _ & _ & _ & Hall).
    exists out. split; [exact Hout|]. apply Hall. simpl. lia.
  - exact (proj2 (equatorial_masking no_rounding default_epsilon
                    default_rho default_H None 3600%R column_30N) Hhigh).
Defined.

Lemma uniform_step_check_witness :
  (1e-4 <= std (astype_float (diff axis_boundary)) / 1e9)%R ∧
  filter_windstress no_rounding axis_boundary [column_30N]
    default_epsilon default_rho default_H None = AssertionError ∧
  astype_float (diff axis_hourly) ≠ [] ∧
  (std (astype_float (diff axis_hourly)) / 1e9 < 1e-4)%R ∧
  ∃ outs,
    time_step axis_hourly = Ok 3600%R ∧
    filter_windstress no_rounding axis_hourly [column_30N]
      default_epsilon default_rho default_H None = Ok outs.
Proof.
  assert (1e-4 <= std (astype_float (diff axis_boundary)) / 1e9)%R as Hrej.
  { rewrite std_axis_boundary. lra. }
  assert (astype_float (diff axis_hourly) ≠ []) as Hne.
  { rewrite diff_axis_hourly. discriminate. }
  assert (std (astype_float (diff axis_hourly)) / 1e9 < 1e-4)%R as Hacc.
  { rewrite std_axis_hourly. lra. }
  split; [exact Hrej|]. split.
  { apply (proj1 (uniform_step_check no_rounding axis_boundary [column_30N]
                    default_epsilon default_rho default_H None)).
    right. exact Hrej. }
  split; [exact Hne|]. split; [exact Hacc|].
  destruct (proj2 (uniform_step_check no_rounding axis_hourly [column_30N]
                     default_epsilon default_rho default_H None) Hne Hacc)
    as (dt & outs & Hdt & Hstep & Hrun & _).
  exists outs. split; [|exact Hrun].
  rewrite Hstep, Hdt, diff_axis_hourly, mean_pair. f_equal. lra.
Defined.

(** * Further properties *)

(** ** The kernel as a recursion scheme *)

Section KernelInduction.

Context {C : Type}.
Variable czero : C.
Variables cadd cmul : C → C → C.

Local Notation "x ⊕ y" := (cadd x y) (at level 50, left associativity).
Local Notation "x ⊗ y" := (cmul x y) (at level 40, left associativity).

(** A property of the output, index by index: it is enough that the two
    zeros at the start have it and that one pass of the loop body keeps
    it. *)
Lemma integrate_invariant (P : nat → C → Prop) (T : list C) (d1 d2 c0 c2 : C) :
  (∀ l, l < 2 → l < length T → P l czero) →
  (∀ l Tl Tl2 x y,
     2 ≤ l < length T → T !! l = Some Tl → T !! (l - 2) = Some Tl2 →
     P (l - 1) x → P (l - 2) y →
     P l (d1 ⊗ x ⊕ d2 ⊗ y ⊕ c0 ⊗ Tl ⊕ c2 ⊗ Tl2)) →
  ∃ q,
    integrate czero cadd cmul T
      (broadcast d1 (length T)) (broadcast d2 (length T))
      (broadcast c0 (length T)) (broadcast c2 (length T)) = Some q ∧
    length q = length T ∧
    ∀ l v, q !! l = Some v → P l v.
Proof.
  intros Hlow Hstep.
  destruct (integrate_spec czero cadd cmul T
              (broadcast d1 (length T)) (broadcast d2 (length T))
              (broadcast c0 (length T)) (broadcast c2 (length T)))
    as (q & Hrun & Hlen & Hzero & Hrec);
    try apply length_replicate.
  exists q. split; [exact Hrun|]. split; [exact Hlen|].
  intros l. induction l as [l IH] using lt_wf_ind. intros v Hv.
  assert (l < length T) as Hl.
  { rewrite <- Hlen. apply lookup_lt_is_Some_1. by eexists. }
  destruct (le_lt_dec 2 l) as [Hbig|Hsmall].
  - destruct (obeys_broadcast cadd cmul T q d1 d2 c0 c2 (length T) l)
      as (x & y & Tl & Tl2 & E1 & E2 & E3 & E4 & E5); [apply Hrec; lia|].
    rewrite E5 in Hv. injection Hv as <-.
    apply Hstep; try assumption; try lia; apply IH; (lia || assumption).
  - rewrite Hzero in Hv by lia. injection Hv as <-. apply Hlow; lia.
Qed.

(** The output of one run read off the output of another, through a map
    [g] on the scalars that one pass of the loop body commutes with. *)
Lemma integrate_map (g : C → C) (T T' : list C)
      (d1 d2 c0 c2 d1' d2' c0' c2' : C) :
  length T' = length T →
  g czero = czero →
  (∀ l Tl Tl2 Tl' Tl2' x y,
     2 ≤ l < length T →
     T !! l = Some Tl → T !! (l - 2) = Some Tl2 →
     T' !! l = Some Tl' → T' !! (l - 2) = Some Tl2' →
     d1' ⊗ g x ⊕ d2' ⊗ g y ⊕ c0' ⊗ Tl' ⊕ c2' ⊗ Tl2'
     = g (d1 ⊗ x ⊕ d2 ⊗ y ⊕ c0 ⊗ Tl ⊕ c2 ⊗ Tl2)) →
  ∃ q,
    integrate czero cadd cmul T
      (broadcast d1 (length T)) (broadcast d2 (length T))
      (broadcast c0 (length T)) (broadcast c2 (length T)) = Some q ∧
    integrate czero cadd cmul T'
      (broadcast d1' (length T')) (broadcast d2' (length T'))
      (broadcast c0' (length T')) (broadcast c2' (length T'))
    = Some (g <$> q).
Proof.
  intros HT' Hg Hstep.
  destruct (integrate_spec czero cadd cmul T
              (broadcast d1 (length T)) (broadcast d2 (length T))
              (broadcast c0 (length T)) (broadcast c2 (length T)))
    as (q & Hrun & Hlen & Hzero & Hrec);
    try apply length_replicate.
  exists q. split; [exact Hrun|].
  destruct (integrate_invariant
              (λ l v, ∃ x, q !! l = Some x ∧ v = g x) T' d1' d2' c0' c2')
    as (q' & Hrun' & Hlen' & HP).
  - intros l Hl Hl'. exists czero. split; [apply Hzero; lia | done].
  - intros l Tl' Tl2' x' y' Hl HTl' HTl2' (x & Hx & ->) (y & Hy & ->).
    destruct (obeys_broadcast cadd cmul T q d1 d2 c0 c2 (length T) l)
      as (x0 & y0 & Tl & Tl2 & E1 & E2 & E3 & E4 & E5);
      [apply Hrec; lia|].
    rewrite Hx in E1. rewrite Hy in E2. simplify_eq.
    eexists. split; [exact E5|]. eapply Hstep; eauto. lia.
  - rewrite Hrun'. f_equal. apply list_eq. intros l.
    rewrite list_lookup_fmap.
    destruct (q' !! l) as [v|] eqn:Hv.
    + destruct (HP l v Hv) as (x & -> & ->). done.
    + apply lookup_ge_None_1 in Hv.
      rewrite lookup_ge_None_2; [done | lia].
Qed.

(** X1. The kernel on the first [m] steps of a series is the first [m] steps
    of the kernel on the whole series: a longer record leaves the output
    already there as it is. *)
Theorem integrate_prefix (T : list C) (d1 d2 c0 c2 : C) (m : nat) :
  m ≤ length T →
  ∃ q,
    integrate czero cadd cmul T
      (broadcast d1 (length T)) (broadcast d2 (length T))
      (broadcast c0 (length T)) (broadcast c2 (length T)) = Some q ∧
    integrate czero cadd cmul (take m T)
      (broadcast d1 m) (broadcast d2 m) (broadcast c0 m) (broadcast c2 m)
    = Some (take m q).
Proof.
  intros Hm.
  destruct (integrate_spec czero cadd cmul T
              (broadcast d1 (length T)) (broadcast d2 (length T))
              (broadcast c0 (length T)) (broadcast c2 (length T)))
    as (q & Hrun & Hlen & Hzero & Hrec);
    try apply length_replicate.
  exists q. split; [exact Hrun|].
  assert (length (take m T) = m) as Hlm by (rewrite length_take; lia).
  destruct (integrate_invariant (λ l v, q !! l = Some v)
              (take m T) d1 d2 c0 c2) as (q' & Hrun' & Hlen' & HP).
  - intros l Hl Hl'. apply Hzero; lia.
  - intros l Tl Tl2 x y Hl HTl HTl2 Hx Hy.
    apply lookup_take_Some in HTl as [HTl _].
    apply lookup_take_Some in HTl2 as [HTl2 _].
    destruct (obeys_broadcast cadd cmul T q d1 d2 c0 c2 (length T) l)
      as (x0 & y0 & Tl0 & Tl20 & E1 & E2 & E3 & E4 & E5);
      [apply Hrec; lia|].
    by simplify_eq.
  - rewrite Hlm in Hrun', Hlen'. rewrite Hrun'. f_equal.
    apply list_eq. intros l.
    destruct (le_lt_dec m l) as [Hout|Hin].
    + rewrite lookup_take_ge by lia. apply lookup_ge_None_2. lia.
    + rewrite lookup_take_lt by lia.
      destruct (lookup_lt_is_Some_2 q' l) as [v Hv]; [lia|].
      rewrite Hv. symmetry. by apply HP.
Qed.

End KernelInduction.

(** ** The filter as a linear response *)

Section ResponseFacts.

Local Open Scope R_scope.

(** X2. The response to a combination of two wind-stress series is the same
    combination of the two responses. *)
Theorem integrate_linear (a b : complex) (T T' : list complex)
        (d1 d2 c0 c2 : complex) :
  length T' = length T →
  ∃ q q',
    integrate C0 Cadd Cmul T
      (broadcast d1 (length T)) (broadcast d2 (length T))
      (broadcast c0 (length T)) (broadcast c2 (length T)) = Some q ∧
    integrate C0 Cadd Cmul T'
      (broadcast d1 (length T)) (broadcast d2 (length T))
      (broadcast c0 (length T)) (broadcast c2 (length T)) = Some q' ∧
    integrate C0 Cadd Cmul
      (zip_with (λ t t', Cadd (Cmul a t) (Cmul b t')) T T')
      (broadcast d1 (length T)) (broadcast d2 (length T))
      (broadcast c0 (length T)) (broadcast c2 (length T))
    = Some (zip_with (λ x x', Cadd (Cmul a x) (Cmul b x')) q q').
Proof.
  intros HT'.
  destruct (integrate_spec C0 Cadd Cmul T
              (broadcast d1 (length T)) (broadcast d2 (length T))
              (broadcast c0 (length T)) (broadcast c2 (length T)))
    as (q & Hrun & Hlen & Hzero & Hrec);
    try apply length_replicate.
  destruct (integrate_spec C0 Cadd Cmul T'
              (broadcast d1 (length T)) (broadcast d2 (length T))
              (broadcast c0 (length T)) (broadcast c2 (length T)))
    as (q' & Hrun' & Hlen' & Hzero' & Hrec');
    try (rewrite HT'; apply length_replicate).
  rewrite HT' in Hlen', Hzero', Hrec'.
  exists q, q'. split; [exact Hrun|]. split; [exact Hrun'|].
  set (T3 := zip_with (λ t t', Cadd (Cmul a t) (Cmul b t')) T T').
  assert (length T3 = length T) as HT3.
  { unfold T3. rewrite length_zip_with. lia. }
  destruct (integrate_invariant C0 Cadd Cmul
              (λ l v, ∃ x x', q !! l = Some x ∧ q' !! l = Some x' ∧
                              v = Cadd (Cmul a x) (Cmul b x'))
              T3 d1 d2 c0 c2) as (q3 & Hrun3 & Hlen3 & HP).
  - intros l Hl Hl3. exists C0, C0.
    split; [apply Hzero; lia|]. split; [apply Hzero'; lia|].
    apply complex_eq; simpl; ring.
  - intros l Tl Tl2 x3 y3 Hl HTl HTl2
      (x & x' & Hx & Hx' & ->) (y & y' & Hy & Hy' & ->).
    unfold T3 in HTl, HTl2.
    apply lookup_zip_with_Some in HTl as (t & t' & -> & Ht & Ht').
    apply lookup_zip_with_Some in HTl2 as (s & s' & -> & Hs & Hs').
    destruct (obeys_broadcast Cadd Cmul T q d1 d2 c0 c2 (length T) l)
      as (x0 & y0 & Tl & Tl2 & E1 & E2 & E3 & E4 & E5);
      [apply Hrec; lia|].
    destruct (obeys_broadcast Cadd Cmul T' q' d1 d2 c0 c2 (length T) l)
      as (x0' & y0' & Tl' & Tl2' & F1 & F2 & F3 & F4 & F5);
      [apply Hrec'; lia|].
    simplify_eq. eexists _, _. split; [exact E5|]. split; [exact F5|].
    apply complex_eq; simpl; ring.
  - rewrite HT3 in Hrun3, Hlen3. rewrite Hrun3. f_equal.
    apply list_eq. intros l. rewrite lookup_zip_with.
    destruct (q3 !! l) as [v|] eqn:Hv.
    + destruct (HP l v Hv) as (x & x' & -> & -> & ->). done.
    + apply lookup_ge_None_1 in Hv.
      rewrite (lookup_ge_None_2 q) by lia. done.
Qed.

(** X3. With [c2 = -c0], as [filter_windstress] sets it, the wind stress acts
    on the recursion through its two-step differences [T_l - T_{l-2}]
    only: two series with the same differences have the same response. *)
Theorem integrate_difference_forcing (T T' : list complex)
        (d1 d2 c0 : complex) :
  length T' = length T →
  (∀ l Tl Tl2 Tl' Tl2',
     (2 <= l)%nat →
     T !! l = Some Tl → T !! (l - 2)%nat = Some Tl2 →
     T' !! l = Some Tl' → T' !! (l - 2)%nat = Some Tl2' →
     Cadd Tl' (Copp Tl2') = Cadd Tl (Copp Tl2)) →
  ∃ q,
    integrate C0 Cadd Cmul T
      (broadcast d1 (length T)) (broadcast d2 (length T))
      (broadcast c0 (length T)) (broadcast (Copp c0) (length T)) = Some q ∧
    integrate C0 Cadd Cmul T'
      (broadcast d1 (length T')) (broadcast d2 (length T'))
      (broadcast c0 (length T')) (broadcast (Copp c0) (length T'))
    = Some q.
Proof.
  intros HT' Hdiff.
  destruct (integrate_map C0 Cadd Cmul (λ z, z) T T'
              d1 d2 c0 (Copp c0) d1 d2 c0 (Copp c0))
    as (q & Hrun & Hrun'); [exact HT' | done | |].
  - intros l Tl Tl2 Tl' Tl2' x y Hl HTl HTl2 HTl' HTl2'.
    pose proof (Hdiff l Tl Tl2 Tl' Tl2' (proj1 Hl) HTl HTl2 HTl' HTl2')
      as Heq.
    assert (re Tl' = re Tl - re Tl2 + re Tl2') as Hre.
    { apply (f_equal re) in Heq. simpl in Heq. lra. }
    assert (im Tl' = im Tl - im Tl2 + im Tl2') as Him.
    { apply (f_equal im) in Heq. simpl in Heq. lra. }
    apply complex_eq; simpl; rewrite Hre, Him; ring.
  - exists q. split; [exact Hrun|]. by rewrite list_fmap_id in Hrun'.
Qed.

End ResponseFacts.

(** ** Columns *)

Section ColumnFacts.

Local Open Scope R_scope.

Variable float32 : R → R.

Lemma Cconj_0 : Cconj C0 = C0.
Proof. apply complex_eq; simpl; ring. Qed.

Lemma Cconj_real (x : R) : Cconj (RtoC x) = RtoC x.
Proof. apply complex_eq; simpl; ring. Qed.

Lemma Cconj_div (a b : complex) : Cconj (Cdiv a b) = Cdiv (Cconj a) (Cconj b).
Proof.
  apply complex_eq; simpl; unfold Rdiv;
    replace (re b * re b + - im b * - im b)
      with (re b * re b + im b * im b) by ring;
    ring.
Qed.

Lemma coriolis_neg (x : R) : coriolis (- x) = - coriolis x.
Proof.
  unfold coriolis, deg2rad.
  replace (- x * (PI / 180)) with (- (x * (PI / 180))) by ring.
  rewrite sin_neg. ring.
Qed.

(** The coefficients at the opposite Coriolis parameter are the complex
    conjugates. *)
Lemma coefficients_neg (epsilon rho H f dt : R) :
  c_0 (coefficients epsilon rho H (- f) dt)
  = Cconj (c_0 (coefficients epsilon rho H f dt)) ∧
  c_2 (coefficients epsilon rho H (- f) dt)
  = Cconj (c_2 (coefficients epsilon rho H f dt)) ∧
  d_1 (coefficients epsilon rho H (- f) dt)
  = Cconj (d_1 (coefficients epsilon rho H f dt)) ∧
  d_2 (coefficients epsilon rho H (- f) dt)
  = Cconj (d_2 (coefficients epsilon rho H f dt)).
Proof.
  assert (c_0 (coefficients epsilon rho H (- f) dt)
          = Cconj (c_0 (coefficients epsilon rho H f dt))) as Hc0.
  { unfold coefficients. cbn [c_0]. rewrite !Cconj_div, !Cconj_real.
    do 3 f_equal. apply complex_eq; simpl; ring. }
  split; [exact Hc0|]. split; [|split].
  - change (Copp (c_0 (coefficients epsilon rho H (- f) dt))
            = Cconj (Copp (c_0 (coefficients epsilon rho H f dt)))).
    rewrite Hc0. apply complex_eq; simpl; ring.
  - unfold coefficients. cbn [d_1]. apply complex_eq; simpl; ring.
  - unfold coefficients. cbn [d_2]. by rewrite Cconj_real.
Qed.

(** The coefficient [c_0] at depth [H], from the one at the depth of one
    metre the notebook runs with. *)
Lemma c_0_depth (epsilon rho H f dt : R) :
  H ≠ 0 →
  c_0 (coefficients epsilon rho H f dt)
  = Cmul (RtoC (/ H)) (c_0 (coefficients epsilon rho slab_model_H f dt)).
Proof.
  intros HH. unfold coefficients, slab_model_H. cbn [c_0].
  generalize (Cdiv (Cdiv (RtoC (-1))
                         (Cadd (RtoC epsilon) (Cmul Cj (RtoC f))))
                   (RtoC rho)).
  intros a. apply complex_eq; simpl; field; lra.
Qed.

(** X4. A wind stress that repeats every second step, a constant one above
    all, leaves the slab at rest: the recursion returns zeros, and where
    the output is not masked, [slab_u] and [slab_v] are the cast of
    zero. *)
Theorem steady_windstress_no_response epsilon rho H f dt col :
  (∀ l Tl Tl2,
     (2 <= l)%nat →
     windstress float32 col !! l = Some Tl →
     windstress float32 col !! (l - 2)%nat = Some Tl2 →
     Tl = Tl2) →
  integrate_column float32 epsilon rho H f dt col
  = Some (replicate (length (windstress float32 col)) C0) ∧
  ∃ out,
    filter_column float32 epsilon rho H f dt col = Ok out ∧
    ∀ l Tl,
      windstress float32 col !! l = Some Tl → Tl ≠ C0 →
      4 < Rabs (lat (coord col)) →
      slab_u out !! l = Some (Some (float32 0)) ∧
      slab_v out !! l = Some (Some (float32 0)).
Proof.
  intros Hsteady.
  assert (integrate_column float32 epsilon rho H f dt col
          = Some (replicate (length (windstress float32 col)) C0)) as Hq.
  { unfold integrate_column.
    set (k := coefficients epsilon rho H (coriolis_at f (coord col)) dt).
    destruct (integrate_invariant C0 Cadd Cmul (λ _ v, v = C0)
                (windstress float32 col) (d_1 k) (d_2 k) (c_0 k) (c_2 k))
      as (q & Hrun & Hlen & HP).
    - done.
    - intros l Tl Tl2 x y Hl HTl HTl2 -> ->.
      rewrite (Hsteady l Tl Tl2 (proj1 Hl) HTl HTl2).
      apply complex_eq; simpl; ring.
    - rewrite Hrun. f_equal. apply list_eq. intros l.
      destruct (q !! l) as [v|] eqn:Hv.
      + rewrite (HP l v Hv). symmetry. apply lookup_replicate_2.
        rewrite <- Hlen. apply lookup_lt_is_Some_1. by eexists.
      + symmetry. apply lookup_replicate_None.
        apply lookup_ge_None_1 in Hv. lia. }
  split; [exact Hq|].
  eexists. split.
  { unfold filter_column. rewrite Hq. reflexivity. }
  intros l Tl HTl Hne Hlat.
  destruct (lookup_output_of float32
              (masked_column float32 col
                 (replicate (length (windstress float32 col)) C0)) l)
    as (-> & -> & _).
  rewrite lookup_masked_column, HTl, lookup_replicate_2.
  2: { apply lookup_lt_is_Some_1. by eexists. }
  simpl. destruct (Rgt_dec _ _) as [_|Hn]; [|lra].
  destruct (Ceq0 Tl) eqn:Hz; [by apply Ceq0_true in Hz | done].
Qed.

(** X5. The unmasked response at mixed-layer depth [H] is the response at the
    depth of one metre, divided by [H]. *)
Theorem mixed_layer_depth_scaling epsilon rho H f dt col :
  H ≠ 0 →
  ∃ q,
    integrate_column float32 epsilon rho slab_model_H f dt col = Some q ∧
    integrate_column float32 epsilon rho H f dt col
    = Some (Cmul (RtoC (/ H)) <$> q).
Proof.
  intros HH. unfold integrate_column.
  set (F := coriolis_at f (coord col)).
  apply (integrate_map C0 Cadd Cmul (Cmul (RtoC (/ H)))
           (windstress float32 col) (windstress float32 col)).
  - done.
  - apply complex_eq; simpl; ring.
  - intros l Tl Tl2 Tl' Tl2' x y Hl HTl HTl2 HTl' HTl2'. simplify_eq.
    change (c_2 (coefficients epsilon rho H F dt))
      with (Copp (c_0 (coefficients epsilon rho H F dt))).
    change (c_2 (coefficients epsilon rho slab_model_H F dt))
      with (Copp (c_0 (coefficients epsilon rho slab_model_H F dt))).
    rewrite (c_0_depth epsilon rho H F dt HH).
    change (d_1 (coefficients epsilon rho H F dt))
      with (d_1 (coefficients epsilon rho slab_model_H F dt)).
    change (d_2 (coefficients epsilon rho H F dt))
      with (d_2 (coefficients epsilon rho slab_model_H F dt)).
    apply complex_eq; simpl; ring.
Qed.

End ColumnFacts.

(** ** Symmetry, validity and shape *)

Section OutputFacts.

Local Open Scope R_scope.

Variable float32 : R → R.

(** The zero-filled wind stress of a column with the northward stress
    reversed is the complex conjugate, once the cast is odd. *)
Lemma windstress_mirror col col' :
  (∀ x, float32 (- x) = - float32 x) →
  taux col' = taux col →
  tauy col' = (λ o : option R, Ropp <$> o) <$> tauy col →
  windstress float32 col' = Cconj <$> windstress float32 col.
Proof.
  intros Hodd Hx Hy. unfold windstress. rewrite Hx, Hy.
  apply list_eq. intros l.
  rewrite !list_lookup_fmap, !lookup_zip_with, list_lookup_fmap.
  destruct (taux col !! l) as [[x|]|]; simpl; [| |done].
  - destruct (tauy col !! l) as [[y|]|]; simpl; [| |done].
    + f_equal. unfold fill_zero. simpl. rewrite Hodd.
      apply complex_eq; simpl; ring.
    + by rewrite Cconj_0.
  - destruct (tauy col !! l) as [[y|]|]; simpl; by rewrite ?Cconj_0.
Qed.

(** X6. Mirror a column at the equator (opposite latitude, the same eastward
    stress, the northward stress reversed) and the unmasked response is
    the complex conjugate: the same [u], the opposite [v]. *)
Theorem hemisphere_mirror epsilon rho H dt col col' :
  (∀ x, float32 (- x) = - float32 x) →
  lat (coord col') = - lat (coord col) →
  taux col' = taux col →
  tauy col' = (λ o : option R, Ropp <$> o) <$> tauy col →
  ∃ q,
    integrate_column float32 epsilon rho H None dt col = Some q ∧
    integrate_column float32 epsilon rho H None dt col'
    = Some (Cconj <$> q).
Proof.
  intros Hodd Hlat Hx Hy. unfold integrate_column, coriolis_at.
  rewrite (windstress_mirror col col' Hodd Hx Hy), Hlat, coriolis_neg.
  set (F := coriolis (lat (coord col))).
  destruct (coefficients_neg epsilon rho H F dt) as (-> & -> & -> & ->).
  apply (integrate_map C0 Cadd Cmul Cconj).
  - apply length_fmap.
  - apply Cconj_0.
  - intros l Tl Tl2 Tl' Tl2' x y Hl HTl HTl2 HTl' HTl2'.
    rewrite list_lookup_fmap, HTl in HTl'.
    rewrite list_lookup_fmap, HTl2 in HTl2'.
    simplify_eq/=. apply complex_eq; simpl; ring.
Qed.

(** X7. Which output steps are valid, and what they hold: step [l] of a column
    is invalid when the column lies within 4 degrees of the equator or
    its zero-filled wind stress at [l] is zero; at every other step the
    outputs are the cast parts of the recursion's value there. *)
Theorem output_validity epsilon rho H f dt col l Tl :
  windstress float32 col !! l = Some Tl →
  ∃ q out ql,
    integrate_column float32 epsilon rho H f dt col = Some q ∧
    filter_column float32 epsilon rho H f dt col = Ok out ∧
    q !! l = Some ql ∧
    (Rabs (lat (coord col)) <= 4 ∨ Tl = C0 →
     slab_u out !! l = Some None ∧
     slab_v out !! l = Some None ∧
     slab_umag out !! l = Some None) ∧
    (4 < Rabs (lat (coord col)) → Tl ≠ C0 →
     slab_u out !! l = Some (Some (float32 (re ql))) ∧
     slab_v out !! l = Some (Some (float32 (im ql))) ∧
     slab_umag out !! l
     = Some (Some (sqrt32 float32
                     (add32 float32 (square32 float32 (float32 (re ql)))
                                    (square32 float32 (float32 (im ql))))))).
Proof.
  intros HTl.
  destruct (filter_column_Ok float32 epsilon rho H f dt col)
    as (q & Hrun & Hlen & Hout).
  destruct (lookup_lt_is_Some_2 q l) as [ql Hql].
  { rewrite Hlen. apply lookup_lt_is_Some_1. by eexists. }
  exists q. eexists. exists ql.
  split; [exact Hrun|]. split; [exact Hout|]. split; [exact Hql|].
  destruct (lookup_output_of float32 (masked_column float32 col q) l)
    as (-> & -> & ->).
  rewrite lookup_masked_column, Hql, HTl. simpl.
  split.
  - intros [Hlat | ->].
    + destruct (Rgt_dec _ _) as [Hgt|_]; [lra | done].
    + rewrite (proj2 (Ceq0_true C0)) by done.
      by destruct (Rgt_dec _ _).
  - intros Hlat Hne.
    destruct (Rgt_dec _ _) as [_|Hn]; [|lra].
    destruct (Ceq0 Tl) eqn:Hz; [by apply Ceq0_true in Hz | done].
Qed.

(** X8. One missing component is enough: where [taux] or [tauy] is
    missing at a step, the wind stress enters the recursion as zero
    there, the three outputs are invalid at that step, and the column is
    filtered without failure. *)
Theorem missing_component_masked epsilon rho H f dt col l :
  (l < length (taux col))%nat → (l < length (tauy col))%nat →
  taux col !! l = Some None ∨ tauy col !! l = Some None →
  windstress float32 col !! l = Some C0 ∧
  ∃ out, filter_column float32 epsilon rho H f dt col = Ok out ∧
         slab_u out !! l = Some None ∧
         slab_v out !! l = Some None ∧
         slab_umag out !! l = Some None.
Proof.
  intros Hlx Hly Hmiss.
  destruct (lookup_lt_is_Some_2 (taux col) l Hlx) as [tx Hx].
  destruct (lookup_lt_is_Some_2 (tauy col) l Hly) as [ty Hy].
  assert (windstress float32 col !! l = Some C0) as HT.
  { apply (windstress_missing float32 col l tx ty Hx Hy).
    destruct Hmiss as [Hm|Hm]; [left|right]; congruence. }
  split; [exact HT | by apply zero_windstress_masked].
Qed.


End OutputFacts.

(** ** Uniform axes and [upsample_data] *)

Section AxisFacts.

Local Open Scope R_scope.

Lemma wrap_int64_small (x : Z) :
  (- 2 ^ 63 <= x < 2 ^ 63)%Z → wrap_int64 x = x.
Proof. intros Hx. unfold wrap_int64. rewrite Z.mod_small; lia. Qed.

Lemma diff_uniform_from (t0 d : Z) (n s : nat) :
  diff ((λ i : nat, t0 + Z.of_nat i * d)%Z <$> seq s (S n))
  = replicate n (wrap_int64 d).
Proof.
  revert s. induction n as [|n IH]; intros s; [done|].
  change (seq s (S (S n))) with (s :: S s :: seq (S (S s)) n).
  change (seq (S s) (S n)) with (S s :: seq (S (S s)) n) in IH.
  cbn [fmap list_fmap diff replicate].
  f_equal.
  - f_equal. rewrite Nat2Z.inj_succ. ring.
  - apply (IH (S s)).
Qed.

Lemma Rsum_replicate (n : nat) (x : R) : Rsum (replicate n x) = INR n * x.
Proof.
  induction n as [|n IH]; [simpl; ring|].
  rewrite S_INR. cbn [replicate Rsum foldr]. fold (Rsum (replicate n x)).
  rewrite IH. ring.
Qed.

Lemma mean_replicate (n : nat) (x : R) : mean (replicate (S n) x) = x.
Proof.
  unfold mean. rewrite Rsum_replicate, length_replicate.
  field. apply not_0_INR. done.
Qed.

Lemma std_replicate (n : nat) (x : R) : std (replicate (S n) x) = 0.
Proof.
  unfold std. rewrite mean_replicate, fmap_replicate.
  replace ((x - x) * (x - x)) with 0 by ring.
  rewrite mean_replicate. apply sqrt_0.
Qed.

Lemma time_step_progression (t0 d : Z) (n : nat) :
  (2 <= n)%nat → (- 2 ^ 63 <= d < 2 ^ 63)%Z →
  time_step (uniform_axis t0 d n) = Ok (IZR d / 1e9).
Proof.
  intros Hn Hd.
  destruct n as [|[|n]]; [lia | lia |].
  unfold time_step, uniform_axis, astype_float.
  rewrite diff_uniform_from, (wrap_int64_small d Hd), fmap_replicate.
  change (replicate (S n) (IZR d))
    with (IZR d :: replicate n (IZR d)) at 1.
  cbv beta iota.
  change (IZR d :: replicate n (IZR d)) with (replicate (S n) (IZR d)).
  rewrite std_replicate, mean_replicate.
  destruct (Rlt_dec _ _) as [_|Hn']; [done | lra].
Qed.








(** X10. The check accepts every exactly uniform axis of two stamps or
    more and returns its spacing in seconds, whatever the sign of the
    spacing: an axis that stands still or runs backwards passes, and the
    columns are then filtered with a time step of zero or below. *)
Theorem time_step_uniform_axis (float32 : R → R) (t0 d : Z) (n : nat)
        cols epsilon rho H f :
  (2 <= n)%nat → (- 2 ^ 63 <= d < 2 ^ 63)%Z →
  time_step (uniform_axis t0 d n) = Ok (IZR d / 1e9) ∧
  filter_windstress float32 (uniform_axis t0 d n) cols epsilon rho H f
  = filter_columns float32 epsilon rho H f (IZR d / 1e9) cols.
Proof.
  intros Hn Hd.
  pose proof (time_step_progression t0 d n Hn Hd) as Hstep.
  split; [exact Hstep|].
  unfold filter_windstress. by rewrite Hstep.
Qed.



End AxisFacts.

(** ** The further properties at sample inputs *)

Lemma integrate_prefix_witness :
  3 ≤ length gauss_series ∧
  ∃ q,
    GaussZ.integrate gauss_series
      (GaussZ.broadcast (0, -2)%Z 5) (GaussZ.broadcast (3, 0)%Z 5)
      (GaussZ.broadcast (1, 1)%Z 5) (GaussZ.broadcast (-1, -1)%Z 5)
    = Some q ∧
    GaussZ.integrate (take 3 gauss_series)
      (GaussZ.broadcast (0, -2)%Z 3) (GaussZ.broadcast (3, 0)%Z 3)
      (GaussZ.broadcast (1, 1)%Z 3) (GaussZ.broadcast (-1, -1)%Z 3)
    = Some (take 3 q).
Proof.
  split; [simpl; lia|].
  apply (integrate_prefix GaussZ.zero GaussZ.add GaussZ.mul gauss_series
           (0, -2)%Z (3, 0)%Z (1, 1)%Z (-1, -1)%Z 3).
  simpl; lia.
Defined.

Lemma integrate_linear_witness :
  length series_ramp_offset = length series_ramp ∧
  ∃ q q',
    integrate C0 Cadd Cmul series_ramp
      (broadcast (mkC 0 (-2)) 3) (broadcast (mkC 3 0) 3)
      (broadcast (mkC 1 1) 3) (broadcast (mkC (-1) (-1)) 3) = Some q ∧
    integrate C0 Cadd Cmul series_ramp_offset
      (broadcast (mkC 0 (-2)) 3) (broadcast (mkC 3 0) 3)
      (broadcast (mkC 1 1) 3) (broadcast (mkC (-1) (-1)) 3) = Some q' ∧
    integrate C0 Cadd Cmul
      (zip_with (λ t t', Cadd (Cmul (mkC 2 0) t) (Cmul Cj t'))
                series_ramp series_ramp_offset)
      (broadcast (mkC 0 (-2)) 3) (broadcast (mkC 3 0) 3)
      (broadcast (mkC 1 1) 3) (broadcast (mkC (-1) (-1)) 3)
    = Some (zip_with (λ x x', Cadd (Cmul (mkC 2 0) x) (Cmul Cj x')) q q').
Proof.
  split; [reflexivity|].
  apply (integrate_linear (mkC 2 0) Cj series_ramp series_ramp_offset).
  reflexivity.
Defined.

Lemma integrate_difference_forcing_witness :
  length series_ramp_offset = length series_ramp ∧
  ∃ q,
    integrate C0 Cadd Cmul series_ramp
      (broadcast (mkC 0 (-2)) 3) (broadcast (mkC 3 0) 3)
      (broadcast (mkC 1 1) 3) (broadcast (Copp (mkC 1 1)) 3) = Some q ∧
    integrate C0 Cadd Cmul series_ramp_offset
      (broadcast (mkC 0 (-2)) 3) (broadcast (mkC 3 0) 3)
      (broadcast (mkC 1 1) 3) (broadcast (Copp (mkC 1 1)) 3) = Some q.
Proof.
  split; [reflexivity|].
  apply (integrate_difference_forcing series_ramp series_ramp_offset);
    [reflexivity|].
  intros [|[|[|[|l]]]] Tl Tl2 Tl' Tl2' Hl H1 H2 H3 H4;
    simpl in *; try lia; try discriminate.
  simplify_eq. apply complex_eq; simpl; lra.
Defined.

Lemma steady_windstress_no_response_witness :
  integrate_column no_rounding default_epsilon default_rho default_H None
    3600%R column_constant
  = Some [C0; C0; C0; C0] ∧
  ∃ out,
    filter_column no_rounding default_epsilon default_rho default_H None
      3600%R column_constant = Ok out ∧
    slab_u out !! 3 = Some (Some (no_rounding 0)) ∧
    slab_v out !! 3 = Some (Some (no_rounding 0)).
Proof.
  destruct (steady_windstress_no_response no_rounding default_epsilon
              default_rho default_H None 3600%R column_constant)
    as (Hq & out & Hout & Hvalid).
  { intros [|[|[|[|l]]]] Tl Tl2 Hl H1 H2;
      simpl in *; try lia; try discriminate; congruence. }
  split; [exact Hq|]. exists out. split; [exact Hout|].
  apply (Hvalid 3 (Cadd (RtoC (no_rounding 1))
                        (Cmul Cj (RtoC (no_rounding 2))))).
  - reflexivity.
  - intros Hz. apply (f_equal re) in Hz. unfold no_rounding in Hz.
    simpl in Hz. lra.
  - simpl. unfold Rabs. destruct (Rcase_abs _); lra.
Defined.

Lemma mixed_layer_depth_scaling_witness :
  default_H ≠ 0%R ∧
  ∃ q,
    integrate_column no_rounding default_epsilon default_rho slab_model_H
      None 3600%R column_north = Some q ∧
    integrate_column no_rounding default_epsilon default_rho default_H
      None 3600%R column_north
    = Some (Cmul (RtoC (/ default_H)) <$> q).
Proof.
  assert (default_H ≠ 0%R) as HH by (unfold default_H; lra).
  split; [exact HH|].
  apply (mixed_layer_depth_scaling no_rounding default_epsilon default_rho
           default_H None 3600%R column_north HH).
Defined.

Lemma hemisphere_mirror_witness :
  lat (coord column_south) = (- lat (coord column_north))%R ∧
  ∃ q,
    integrate_column no_rounding default_epsilon default_rho default_H
      None 3600%R column_north = Some q ∧
    integrate_column no_rounding default_epsilon default_rho default_H
      None 3600%R column_south = Some (Cconj <$> q).
Proof.
  assert (lat (coord column_south) = (- lat (coord column_north))%R)
    as Hlat by (simpl; lra).
  split; [exact Hlat|].
  apply (hemisphere_mirror no_rounding default_epsilon default_rho
           default_H 3600%R column_north column_south).
  - reflexivity.
  - exact Hlat.
  - reflexivity.
  - simpl. repeat f_equal; lra.
Defined.

Lemma output_validity_witness :
  ∃ q out ql,
    integrate_column no_rounding default_epsilon default_rho default_H
      None 3600%R column_30N = Some q ∧
    filter_column no_rounding default_epsilon default_rho default_H
      None 3600%R column_30N = Ok out ∧
    q !! 0 = Some ql ∧
    slab_u out !! 0 = Some (Some (no_rounding (re ql))) ∧
    slab_v out !! 0 = Some (Some (no_rounding (im ql))).
Proof.
  destruct (output_validity no_rounding default_epsilon default_rho
              default_H None 3600%R column_30N 0
              (Cadd (RtoC (no_rounding 1)) (Cmul Cj (RtoC (no_rounding 0)))))
    as (q & out & ql & Hq & Hout & Hql & _ & Hvalid); [reflexivity|].
  exists q, out, ql.
  split; [exact Hq|]. split; [exact Hout|]. split; [exact Hql|].
  destruct Hvalid as (Hu & Hv & _).
  - simpl. unfold Rabs. destruct (Rcase_abs _); lra.
  - intros Hz. apply (f_equal re) in Hz. unfold no_rounding in Hz.
    simpl in Hz. lra.
  - split; [exact Hu | exact Hv].
Defined.

Lemma missing_component_masked_witness :
  taux column_3N !! 1 = Some None ∧
  windstress no_rounding column_3N !! 1 = Some C0 ∧
  ∃ out,
    filter_column no_rounding default_epsilon default_rho default_H None
      3600%R column_3N = Ok out ∧
    slab_u out !! 1 = Some None ∧
    slab_v out !! 1 = Some None ∧
    slab_umag out !! 1 = Some None.
Proof.
  split; [reflexivity|].
  apply (missing_component_masked no_rounding default_epsilon default_rho
           default_H None 3600%R column_3N 1).
  - simpl; lia.
  - simpl; lia.
  - left. reflexivity.
Defined.


Lemma time_step_uniform_axis_witness :
  time_step (uniform_axis 0 3600000000000 3) = Ok (3600000000000 / 1e9)%R ∧
  time_step (uniform_axis 7200000000000 (-3600000000000) 3)
  = Ok (-3600000000000 / 1e9)%R.
Proof.
  split.
  - apply (time_step_uniform_axis no_rounding 0 3600000000000 3
             [column_30N] default_epsilon default_rho default_H None); lia.
  - apply (time_step_uniform_axis no_rounding 7200000000000
             (-3600000000000) 3
             [column_30N] default_epsilon default_rho default_H None); lia.
Defined.


